(** * A shallow embedding of [Vector<T>] (src/vector.h)

    Memory is a heap of blocks obtained from [operator new]; a block is a
    list of slots, each either raw storage or a live object of type [T].
    [Vector] itself is the triple [size_], [capacity_], [data_] of the
    class, [data_] being [None] for [nullptr] or [Some b] for the start of
    block [b].  Member functions run in a state monad over the vector and
    the machine, with the exceptions of the code and undefined behaviour
    (destroying or reading a slot that holds no object, dereferencing
    [nullptr], ...) as outcomes.  Sizes are [nat]: an allocation of
    [2^63] elements never succeeds, so [size_t] wrap-around is out of reach. *)

From stdpp Require Import base gmap list.
From Stdlib Require Import Lia.

(** The special members of the element type [T] that the container calls.
    The [nat] argument of a constructor is the number of constructions of
    [T] performed so far, so that a test double can throw on a chosen one;
    [None] means the constructor throws. *)
Record ElemOps (T : Type) := {
  default_ctor : nat -> option T;          (* T() *)
  copy_ctor : nat -> T -> option T;        (* T(const T&) *)
  move_ctor : nat -> T -> option (T * T);  (* T(T&&): new object, moved-from source *)
  elem_eq : T -> T -> bool;                (* operator== *)
  elem_lt : T -> T -> bool                 (* operator< *)
}.
Arguments default_ctor {T}. Arguments copy_ctor {T}. Arguments move_ctor {T}.
Arguments elem_eq {T}. Arguments elem_lt {T}.

(** [ArrayOutOfRange] is thrown by [At]; [ElementFailure] is whatever a
    constructor of [T] throws. *)
Inductive exn := ArrayOutOfRange | ElementFailure.

(** [SIZE_MAX], the value of [size_t(0) - 1]. *)
Definition SIZE_MAX : nat := Nat.pow 2 64 - 1.

(** [n - 1] in [size_t]. *)
Definition size_t_dec (n : nat) : nat := match n with 0 => SIZE_MAX | S k => k end.

Section Vector.
Context {T : Type} (ops : ElemOps T).

Inductive slot := Raw | Live (x : T).

Record machine := mkMachine { heap : gmap nat (list slot); ctor_count : nat }.

(** ** Memory actions *)

Inductive mres (A : Type) :=
| MOk (a : A) (m : machine)
| MExc (e : exn) (m : machine)
| MUB.
Arguments MOk {A}. Arguments MExc {A}. Arguments MUB {A}.

Definition mem (A : Type) : Type := machine -> mres A.

Global Instance mem_ret : MRet mem := fun A a m => MOk a m.
Global Instance mem_bind : MBind mem := fun A B f x m =>
  match x m with
  | MOk a m' => f a m'
  | MExc e m' => MExc e m'
  | MUB => MUB
  end.

Definition raise {A} (e : exn) : mem A := fun m => MExc e m.
Definition undefined {A} : mem A := fun _ => MUB.

(** [try { x } catch (...) { h }] *)
Definition catch {A} (x : mem A) (h : exn -> mem A) : mem A := fun m =>
  match x m with
  | MExc e m' => h e m'
  | r => r
  end.

Definition deref (p : option nat) : mem nat :=
  match p with Some b => mret b | None => undefined end.

Definition load_block (b : nat) : mem (list slot) := fun m =>
  match heap m !! b with Some l => MOk l m | None => MUB end.

Definition get_slot (b i : nat) : mem slot :=
  l ← load_block b;
  match l !! i with Some s => mret s | None => undefined end.

Definition put_block (b : nat) (l : list slot) : mem unit := fun m =>
  MOk tt (mkMachine (<[b := l]> (heap m)) (ctor_count m)).

Definition set_slot (b i : nat) (s : slot) : mem unit :=
  l ← load_block b;
  if i <? length l then put_block b (<[i := s]> l) else undefined.

(** One more construction of [T] starts; returns how many came before. *)
Definition tick : mem nat := fun m =>
  MOk (ctor_count m) (mkMachine (heap m) (S (ctor_count m))).

(** [Allocate] of the class: [nullptr] for [0], else a fresh raw block. *)
Definition Allocate (n : nat) : mem (option nat) :=
  if n =? 0 then mret None
  else fun m =>
    let b := fresh (dom (heap m)) in
    MOk (Some b) (mkMachine (<[b := replicate n Raw]> (heap m)) (ctor_count m)).

(** [Deallocate] of the class: [operator delete] unless [nullptr]. *)
Definition Deallocate (p : option nat) : mem unit :=
  match p with
  | None => mret tt
  | Some b => fun m =>
      match heap m !! b with
      | Some _ => MOk tt (mkMachine (delete b (heap m)) (ctor_count m))
      | None => MUB
      end
  end.

(** Reading [p[i]]: there must be a live object. *)
Definition read (p : option nat) (i : nat) : mem T :=
  b ← deref p; s ← get_slot b i;
  match s with Live x => mret x | Raw => undefined end.

(** [new (p + i) T(args...)], the arguments being given by [mk]. *)
Definition construct_at (p : option nat) (i : nat) (mk : nat -> option T) : mem unit :=
  b ← deref p; k ← tick;
  match mk k with
  | Some x => set_slot b i (Live x)
  | None => raise ElementFailure
  end.

(** [new (dst + di) T(std::move(src[si]))] *)
Definition move_construct_at (dst : option nat) (di : nat) (src : option nat) (si : nat) : mem unit :=
  sb ← deref src; db ← deref dst; s ← get_slot sb si;
  match s with
  | Raw => undefined
  | Live x =>
      k ← tick;
      match move_ctor ops k x with
      | Some (y, x') => set_slot sb si (Live x') ;; set_slot db di (Live y)
      | None => raise ElementFailure
      end
  end.

(** [new (dst + di) T(src[si])] *)
Definition copy_construct_at (dst : option nat) (di : nat) (src : option nat) (si : nat) : mem unit :=
  sb ← deref src; db ← deref dst; s ← get_slot sb si;
  match s with
  | Raw => undefined
  | Live x =>
      k ← tick;
      match copy_ctor ops k x with
      | Some y => set_slot db di (Live y)
      | None => raise ElementFailure
      end
  end.

(** [std::destroy_at(p + i)]: ending the lifetime of a non-object is UB. *)
Definition destroy_at (p : option nat) (i : nat) : mem unit :=
  b ← deref p; s ← get_slot b i;
  match s with Live _ => set_slot b i Raw | Raw => undefined end.

(** [std::destroy(p + off, p + off + n)], front to back. *)
Fixpoint destroy (p : option nat) (off n : nat) : mem unit :=
  match n with
  | 0 => mret tt
  | S n' => destroy_at p off ;; destroy p (S off) n'
  end.

(** The loop shared by the [std::uninitialized_*] algorithms: [step i]
    constructs the object at [d + doff + i]; when it throws, the [i]
    objects already built are destroyed and the exception is rethrown. *)
Fixpoint uninit_loop (step : nat -> mem unit) (d : option nat) (doff i n : nat) : mem unit :=
  match n with
  | 0 => mret tt
  | S n' =>
      catch (step i) (fun e => destroy d doff i ;; raise e) ;;
      uninit_loop step d doff (S i) n'
  end.

Definition uninitialized_move (src : option nat) (soff : nat) (d : option nat) (doff n : nat) : mem unit :=
  uninit_loop (fun i => move_construct_at d (doff + i) src (soff + i)) d doff 0 n.

Definition uninitialized_copy (src : option nat) (soff : nat) (d : option nat) (doff n : nat) : mem unit :=
  uninit_loop (fun i => copy_construct_at d (doff + i) src (soff + i)) d doff 0 n.

Definition uninitialized_default_construct_n (d : option nat) (doff n : nat) : mem unit :=
  uninit_loop (fun i => construct_at d (doff + i) (default_ctor ops)) d doff 0 n.

Definition uninitialized_fill_n (d : option nat) (doff n : nat) (value : T) : mem unit :=
  uninit_loop (fun i => construct_at d (doff + i) (fun k => copy_ctor ops k value)) d doff 0 n.

(** ** The class [Vector<T>] *)

Record vec := mkVec { size_ : nat; capacity_ : nat; data_ : option nat }.

(** Outcome of a member function: the state of [*this] and of the machine
    is observable after a normal return and after an exception. *)
Inductive outcome (A : Type) :=
| Ok (a : A) (s : vec * machine)
| Exc (e : exn) (s : vec * machine)
| UB.
Arguments Ok {A}. Arguments Exc {A}. Arguments UB {A}.

Definition M (A : Type) : Type := vec * machine -> outcome A.

Global Instance M_ret : MRet M := fun A a s => Ok a s.
Global Instance M_bind : MBind M := fun A B f x s =>
  match x s with
  | Ok a s' => f a s'
  | Exc e s' => Exc e s'
  | UB => UB
  end.

(** A memory action inside a member function. *)
Definition lift {A} (x : mem A) : M A := fun s =>
  match x (snd s) with
  | MOk a m' => Ok a (fst s, m')
  | MExc e m' => Exc e (fst s, m')
  | MUB => UB
  end.

Definition throw {A} (e : exn) : M A := fun s => Exc e s.
Definition this : M vec := fun s => Ok (fst s) s.
Definition set_this (v : vec) : M unit := fun s => Ok tt (v, snd s).
Definition set_size (n : nat) : M unit :=
  v ← this; set_this (mkVec n (capacity_ v) (data_ v)).
Definition set_capacity (n : nat) : M unit :=
  v ← this; set_this (mkVec (size_ v) n (data_ v)).
Definition set_data (p : option nat) : M unit :=
  v ← this; set_this (mkVec (size_ v) (capacity_ v) p).

(** [Vector()] *)
Definition empty_vec : vec := mkVec 0 0 None.

(** [explicit Vector(SizeType size)] *)
Definition new_sized (size : nat) : mem vec :=
  d ← Allocate size;
  catch (uninitialized_default_construct_n d 0 size) (fun e => Deallocate d ;; raise e) ;;
  mret (mkVec size size d).

(** [Vector(SizeType size, const T& value)] *)
Definition new_sized_value (size : nat) (value : T) : mem vec :=
  d ← Allocate size;
  catch (uninitialized_fill_n d 0 size value) (fun e => Deallocate d ;; raise e) ;;
  mret (mkVec size size d).

(** [Vector(Iterator first, Iterator last)] and [Vector(std::initializer_list<T>)]:
    copy-construct each element of the sequence [xs]. *)
Definition new_from_list (xs : list T) : mem vec :=
  d ← Allocate (length xs);
  catch (uninit_loop (fun i => match xs !! i with
                               | Some x => construct_at d i (fun k => copy_ctor ops k x)
                               | None => undefined
                               end) d 0 0 (length xs))
        (fun e => Deallocate d ;; raise e) ;;
  mret (mkVec (length xs) (length xs) d).

(** [Vector(const Vector& other)] *)
Definition copy_construct (other : vec) : mem vec :=
  d ← Allocate (capacity_ other);
  catch (uninitialized_copy (data_ other) 0 d 0 (size_ other)) (fun e => Deallocate d ;; raise e) ;;
  mret (mkVec (size_ other) (capacity_ other) d).

(** [At(index)]: the object at [index], by value. *)
Definition At (index : nat) : M T :=
  v ← this;
  if size_ v <=? index then throw ArrayOutOfRange
  else lift (read (data_ v) index).

(** The growth step that [Resize], [Reserve], [ShrinkToFit], [PushBack]
    and [EmplaceBack] each spell out: allocate [new_cap] slots, then inside
    one [try] move the [size_] elements of [v] over and run [construct] on
    the new block; on an exception destroy [new_data[0 .. size_)], release
    the new block and rethrow; otherwise destroy the old elements, release
    the old block and adopt the new one.  For [Reserve] and [ShrinkToFit]
    [construct] does nothing. *)
Definition grow (v : vec) (new_cap : nat) (construct : option nat -> mem unit) : M unit :=
  new_data ← lift (Allocate new_cap);
  lift (catch (uninitialized_move (data_ v) 0 new_data 0 (size_ v) ;; construct new_data)
              (fun e => destroy new_data 0 (size_ v) ;; Deallocate new_data ;; raise e)) ;;
  lift (destroy (data_ v) 0 (size_ v)) ;;
  lift (Deallocate (data_ v)) ;;
  set_data new_data ;;
  set_capacity new_cap.

(** [Resize(new_size)] and [Resize(new_size, value)] differ only in the
    algorithm that constructs [n] objects at [d + off]: [fill d off n]. *)
Definition Resize_with (fill : option nat -> nat -> nat -> mem unit) (new_size : nat) : M unit :=
  v ← this;
  (if capacity_ v <? new_size then
     grow v new_size (fun new_data => fill new_data (size_ v) (new_size - size_ v))
   else if new_size <? size_ v then
     lift (destroy (data_ v) new_size (size_ v - new_size))
   else
     lift (fill (data_ v) (size_ v) (new_size - size_ v))) ;;
  set_size new_size.

Definition Resize (new_size : nat) : M unit :=
  Resize_with uninitialized_default_construct_n new_size.

(** [Resize(new_size, const T& value)] when [value] refers to an object
    that no member of [Vector] touches; [Resize_value_ref] below is the
    call on any reference. *)
Definition Resize_value (new_size : nat) (value : T) : M unit :=
  Resize_with (fun d off n => uninitialized_fill_n d off n value) new_size.

(** [Reserve(new_cap)] *)
Definition Reserve (new_cap : nat) : M unit :=
  v ← this;
  if capacity_ v <? new_cap then grow v new_cap (fun _ => mret tt)
  else mret tt.

(** [ShrinkToFit()] *)
Definition ShrinkToFit : M unit :=
  v ← this;
  if size_ v =? 0 then
    lift (Deallocate (data_ v)) ;;
    set_data None ;;
    set_capacity 0
  else if size_ v <? capacity_ v then grow v (size_ v) (fun _ => mret tt)
  else mret tt.

(** [Clear()] *)
Definition Clear : M unit :=
  v ← this;
  match data_ v with
  | Some _ => lift (destroy (data_ v) 0 (size_ v)) ;; set_size 0
  | None => mret tt
  end.

(** [PushBack(const T&)], [PushBack(T&&)] and [EmplaceBack(args...)] share
    this body; they differ in the placement new, [construct p i]. *)
Definition grow_push (construct : option nat -> nat -> mem unit) : M unit :=
  v ← this;
  (if size_ v =? capacity_ v then
     let new_capacity := if capacity_ v =? 0 then 1 else capacity_ v * 2 in
     grow v new_capacity (fun new_data => construct new_data (size_ v))
   else
     lift (construct (data_ v) (size_ v))) ;;
  v' ← this;
  set_size (S (size_ v')).

(** [PushBack(const T& value)] when [value] refers to an object that no
    member of [Vector] touches (one outside the heap's blocks, a local of
    the caller say): it holds [value] throughout the call.  [PushBack_ref]
    below is the call on any reference; on [RVal value] it is this one. *)
Definition PushBack (value : T) : M unit :=
  grow_push (fun p i => construct_at p i (fun k => copy_ctor ops k value)).

(** [PushBack(T&& value)] for such an object; the moved-from argument
    belongs to the caller and is not tracked.  [PushBack_move_ref] below is
    the call on any reference. *)
Definition PushBack_move (value : T) : M unit :=
  grow_push (fun p i => construct_at p i (fun k => option_map fst (move_ctor ops k value))).

(** [EmplaceBack(args...)]: [make] is [T]'s constructor applied to the args. *)
Definition EmplaceBack (make : nat -> option T) : M unit :=
  grow_push (fun p i => construct_at p i make).

(** The argument of [PushBack(const T&)], [PushBack(T&&)] and
    [Resize(n, const T&)] is a reference.  [RVal x] refers to an object
    outside the heap's blocks, which no member of [Vector] touches: it
    holds [x] throughout the call.  [RSlot b i] refers to the object in
    slot [i] of block [b], an element of [*this] for instance. *)
Inductive ref := RVal (x : T) | RSlot (b i : nat).

(** Reading the referenced object. *)
Definition read_ref (r : ref) : mem T :=
  match r with
  | RVal x => mret x
  | RSlot b i => read (Some b) i
  end.

(** [PushBack(const T& value)]: the placement new [T(value)] reads the
    referenced object when it runs, after [std::uninitialized_move] when
    the vector grows. *)
Definition PushBack_ref (value : ref) : M unit :=
  grow_push (fun p i => x ← read_ref value; construct_at p i (fun k => copy_ctor ops k x)).

(** [PushBack(T&& value)]: [T(std::move(value))] moves from the referenced
    object when it runs. *)
Definition PushBack_move_ref (value : ref) : M unit :=
  grow_push (fun p i => match value with
                        | RVal x => construct_at p i (fun k => option_map fst (move_ctor ops k x))
                        | RSlot b j => move_construct_at p i (Some b) j
                        end).

(** [Resize(new_size, const T& value)]: each [T(value)] of
    [std::uninitialized_fill_n] reads the referenced object when it runs. *)
Definition Resize_value_ref (new_size : nat) (value : ref) : M unit :=
  Resize_with (fun d off n =>
                 uninit_loop (fun i => x ← read_ref value;
                                       construct_at d (off + i) (fun k => copy_ctor ops k x))
                             d off 0 n) new_size.

(** [PopBack()] *)
Definition PopBack : M unit :=
  v ← this;
  if 0 <? size_ v then
    lift (destroy_at (data_ v) (size_ v - 1)) ;;
    set_size (size_ v - 1)
  else mret tt.

(** [~Vector()] *)
Definition destruct_vec : M unit :=
  Clear ;;
  v ← this;
  lift (Deallocate (data_ v)).

(** ** Element access and iterators *)

(** [operator[](index)]: no bounds check; the object is read through the
    reference it returns. *)
Definition index_op (index : nat) : M T :=
  v ← this; lift (read (data_ v) index).

(** [Front()]: [data_[0]]. *)
Definition Front : M T :=
  v ← this; lift (read (data_ v) 0).

(** [Back()]: [data_[size_ - 1]]. *)
Definition Back : M T :=
  v ← this; lift (read (data_ v) (size_t_dec (size_ v))).

(** An iterator [T*] into a block: the start of the block ([None] for
    [nullptr]) and an offset. *)
Definition iter : Type := option nat * nat.

(** [begin()] and [end()] *)
Definition begin_ (v : vec) : iter := (data_ v, 0).
Definition end_ (v : vec) : iter := (data_ v, size_ v).

(** [Vector(Iterator first, Iterator last)] with [Iterator = T*], [last]
    reachable from [first]: [std::distance] is the difference of the
    offsets. *)
Definition new_from_range (first last : iter) : mem vec :=
  let n := snd last - snd first in
  d ← Allocate n;
  catch (uninitialized_copy (fst first) (snd first) d 0 n) (fun e => Deallocate d ;; raise e) ;;
  mret (mkVec n n d).

(** ** Comparisons (const members: they only read memory) *)

(** [std::equal(p1 + o1, p1 + o1 + n, p2 + o2)] *)
Fixpoint std_equal (p1 : option nat) (o1 : nat) (p2 : option nat) (o2 n : nat) : mem bool :=
  match n with
  | 0 => mret true
  | S n' =>
      x ← read p1 o1; y ← read p2 o2;
      if elem_eq ops x y then std_equal p1 (S o1) p2 (S o2) n' else mret false
  end.

(** [std::lexicographical_compare(p1 + o1, p1 + o1 + n1, p2 + o2, p2 + o2 + n2)] *)
Fixpoint lex_compare (p1 : option nat) (o1 n1 : nat) (p2 : option nat) (o2 n2 : nat) : mem bool :=
  match n1, n2 with
  | S n1', S n2' =>
      x ← read p1 o1; y ← read p2 o2;
      if elem_lt ops x y then mret true
      else if elem_lt ops y x then mret false
      else lex_compare p1 (S o1) n1' p2 (S o2) n2'
  | 0, S _ => mret true
  | _, 0 => mret false
  end.

Definition op_eq (a b : vec) : mem bool :=
  if size_ a =? size_ b then std_equal (data_ a) 0 (data_ b) 0 (size_ a) else mret false.
Definition op_ne (a b : vec) : mem bool := r ← op_eq a b; mret (negb r).
Definition op_lt (a b : vec) : mem bool :=
  lex_compare (data_ a) 0 (size_ a) (data_ b) 0 (size_ b).
Definition op_gt (a b : vec) : mem bool := op_lt b a.
Definition op_le (a b : vec) : mem bool := r ← op_lt b a; mret (negb r).
Definition op_ge (a b : vec) : mem bool := r ← op_lt a b; mret (negb r).

(** ** Several objects: assignment, move construction, [Swap]

    [objs] maps the address of each live [Vector] object to its fields;
    the operations on two objects see whether they are the same one. *)

Record world := mkWorld { objs : gmap nat vec; mach : machine }.

Inductive wres (A : Type) :=
| WOk (a : A) (w : world)
| WExc (e : exn) (w : world)
| WUB.
Arguments WOk {A}. Arguments WExc {A}. Arguments WUB {A}.

Definition W (A : Type) : Type := world -> wres A.

Global Instance W_ret : MRet W := fun A a w => WOk a w.
Global Instance W_bind : MBind W := fun A B f x w =>
  match x w with
  | WOk a w' => f a w'
  | WExc e w' => WExc e w'
  | WUB => WUB
  end.

Definition wlift {A} (x : mem A) : W A := fun w =>
  match x (mach w) with
  | MOk a m' => WOk a (mkWorld (objs w) m')
  | MExc e m' => WExc e (mkWorld (objs w) m')
  | MUB => WUB
  end.

Definition load (a : nat) : W vec := fun w =>
  match objs w !! a with Some v => WOk v w | None => WUB end.

Definition store (a : nat) (v : vec) : W unit := fun w =>
  WOk tt (mkWorld (<[a := v]> (objs w)) (mach w)).

(** Constructing a new object at address [a]: nothing may live there. *)
Definition absent (a : nat) : W unit := fun w =>
  match objs w !! a with Some _ => WUB | None => WOk tt w end.

(** A member function of the temporary object [v], which no address names. *)
Definition on_temp {A} (v : vec) (f : M A) : W A := fun w =>
  match f (v, mach w) with
  | Ok x (_, m') => WOk x (mkWorld (objs w) m')
  | Exc e (_, m') => WExc e (mkWorld (objs w) m')
  | UB => WUB
  end.

(** A member function of the object at address [a]. *)
Definition run_method {A} (a : nat) (f : M A) : W A := fun w =>
  match objs w !! a with
  | None => WUB
  | Some v =>
      match f (v, mach w) with
      | Ok x (v', m') => WOk x (mkWorld (<[a := v']> (objs w)) m')
      | Exc e (v', m') => WExc e (mkWorld (<[a := v']> (objs w)) m')
      | UB => WUB
      end
  end.

(** [Swap(other)]: exchange the three fields. *)
Definition Swap (self other : nat) : W unit :=
  a ← load self; b ← load other;
  store self b ;; store other a.

(** [Vector(Vector&& other)] creating the object at [self]. *)
Definition move_construct (self other : nat) : W unit :=
  absent self ;;
  o ← load other;
  store self (mkVec (size_ o) (capacity_ o) (data_ o)) ;;
  store other (mkVec 0 0 None).

(** [Vector(const Vector& other)] creating the object at [self]. *)
Definition copy_construct_obj (self other : nat) : W unit :=
  absent self ;;
  o ← load other;
  v ← wlift (copy_construct o);
  store self v.

(** [operator=(const Vector& other)]: [Vector tmp(other); Swap(tmp);],
    then [tmp] is destroyed at the end of the block. *)
Definition copy_assign (self other : nat) : W unit :=
  if self =? other then mret tt
  else
    o ← load other;
    tmp ← wlift (copy_construct o);
    me ← load self;
    store self tmp ;;
    on_temp me destruct_vec.

(** [operator=(Vector&& other)] *)
Definition move_assign (self other : nat) : W unit :=
  if self =? other then mret tt
  else
    run_method self (Clear ;; v ← this; lift (Deallocate (data_ v))) ;;
    o ← load other;
    store self (mkVec (size_ o) (capacity_ o) (data_ o)) ;;
    store other (mkVec 0 0 None).

(** ** Observations *)

Fixpoint live_values (l : list slot) : option (list T) :=
  match l with
  | [] => Some []
  | Live x :: l' => xs ← live_values l'; Some (x :: xs)
  | Raw :: _ => None
  end.

(** The elements [data_[0 .. size_)], when they are all live objects. *)
Definition contents (v : vec) (m : machine) : option (list T) :=
  match data_ v with
  | None => if size_ v =? 0 then Some [] else None
  | Some b =>
      match heap m !! b with
      | Some l => if size_ v <=? length l then live_values (take (size_ v) l) else None
      | None => None
      end
  end.

Definition is_raw (s : slot) : bool := match s with Raw => true | Live _ => false end.

(** The representation invariant of the class (its claim C5 part). *)
Definition rep_ok (v : vec) : bool :=
  (size_ v <=? capacity_ v) &&
  match data_ v with Some _ => 0 <? capacity_ v | None => true end.

(** A well-formed vector in memory: [rep_ok], [data_] is [nullptr] exactly
    for capacity [0], otherwise a block of [capacity_] slots whose first
    [size_] hold objects and the rest raw storage. *)
Definition wf (v : vec) (m : machine) : bool :=
  rep_ok v &&
  match data_ v with
  | None => capacity_ v =? 0
  | Some b =>
      match heap m !! b with
      | Some l =>
          (length l =? capacity_ v) &&
          match live_values (take (size_ v) l) with Some _ => true | None => false end &&
          forallb is_raw (drop (size_ v) l)
      | None => false
      end
  end.

(** [v] holds the elements [xs]: the shape [wf] checks, as a proposition. *)
Definition stored (v : vec) (m : machine) (xs : list T) : Prop :=
  length xs = size_ v /\ size_ v <= capacity_ v /\
  match data_ v with
  | None => capacity_ v = 0
  | Some b => 0 < capacity_ v /\
      heap m !! b = Some (map Live xs ++ replicate (capacity_ v - size_ v) Raw)
  end.

(** The representation invariant holds of the object after a member
    function returned or threw. *)
Definition rep_kept {A} (o : outcome A) : Prop :=
  match o with
  | Ok _ (v', _) | Exc _ (v', _) => rep_ok v' = true
  | UB => True
  end.

(** The same for a constructor. *)
Definition ctor_rep_kept (r : mres vec) : Prop :=
  match r with MOk v _ => rep_ok v = true | _ => True end.

(** Every live [Vector] object satisfies the representation invariant. *)
Definition objs_rep (w : world) : Prop := map_Forall (fun _ v => rep_ok v = true) (objs w).

Definition world_kept {A} (r : wres A) : Prop :=
  match r with
  | WOk _ w' | WExc _ w' => objs_rep w'
  | WUB => True
  end.

(** The heap once [Deallocate(p)] has run. *)
Definition release (p : option nat) (h : gmap nat (list slot)) : gmap nat (list slot) :=
  match p with Some b => delete b h | None => h end.

(** A memory action that, when it returns or throws, leaves the same set
    of allocated blocks. *)
Definition keeps_dom {A} (x : mem A) : Prop :=
  forall m, match x m with
            | MOk _ m' | MExc _ m' => dom (heap m') = dom (heap m)
            | MUB => True
            end.

(** A memory action that never throws. *)
Definition never_raises {A} (x : mem A) : Prop := forall m e m', x m <> MExc e m'.

(** A member function that never throws. *)
Definition no_throw {A} (f : M A) : Prop := forall s e s', f s <> Exc e s'.

(** An operation on several objects that never throws. *)
Definition w_no_throw {A} (f : W A) : Prop := forall w e w', f w <> WExc e w'.
(** The object in slot [j] of block [b] is [x]. *)
Definition holds (b j : nat) (x : T) (m : machine) : Prop :=
  exists l, heap m !! b = Some l /\ l !! j = Some (Live x).

End Vector.

Arguments Raw {T}. Arguments Live {T}.
Arguments MOk {T A}. Arguments MExc {T A}. Arguments MUB {T A}.
Arguments Ok {T A}. Arguments Exc {T A}. Arguments UB {T A}.
Arguments WOk {T A}. Arguments WExc {T A}. Arguments WUB {T A}.

(** ** A test double: integers whose constructors can fail

    [counting_ops fail_at] throws from the copy constructor and the default
    constructor on construction number [fail_at] (counting from 0); its move
    constructor never throws and leaves [0] in the source, as a handle-like
    type does.  [throwing_move_ops fail_at] also throws from the move
    constructor on that construction. *)
Definition counting_ops (fail_at : nat) : ElemOps Z := {|
  default_ctor k := if k =? fail_at then None else Some 0%Z;
  copy_ctor k x := if k =? fail_at then None else Some x;
  move_ctor k x := Some (x, 0%Z);
  elem_eq := Z.eqb;
  elem_lt := Z.ltb
|}.

Definition throwing_move_ops (fail_at : nat) : ElemOps Z := {|
  default_ctor k := if k =? fail_at then None else Some 0%Z;
  copy_ctor k x := if k =? fail_at then None else Some x;
  move_ctor k x := if k =? fail_at then None else Some (x, 0%Z);
  elem_eq := Z.eqb;
  elem_lt := Z.ltb
|}.

Definition machine0 {T} : machine (T:=T) := mkMachine ∅ 0.

(** Run member functions one after the other, stopping at the first
    exception or undefined behaviour. *)
Fixpoint run_all {T} (fs : list (M (T:=T) unit)) : M unit :=
  match fs with
  | [] => mret tt
  | f :: fs' => f ;; run_all fs'
  end.

(** ** The comparisons as the specification words them

    These follow the specification, not the code, and are compared with
    [op_eq] and [op_lt] below.  Equality: same length and element-wise
    equal.  Ordering: lexicographic, the first position where neither
    element is less than the other decides, and a proper prefix is less. *)
Definition spec_eq {T} (eq : T -> T -> bool) (xs ys : list T) : bool :=
  (length xs =? length ys) && forallb (fun p => eq p.1 p.2) (zip xs ys).

Fixpoint spec_lt {T} (lt : T -> T -> bool) (xs ys : list T) : bool :=
  match xs, ys with
  | [], [] => false
  | [], _ :: _ => true
  | _ :: _, [] => false
  | x :: xs', y :: ys' =>
      if lt x y then true else if lt y x then false else spec_lt lt xs' ys'
  end.

(** ** Sample states *)

(** The vector [[5; 7]] with capacity 3, in block 0. *)
Definition sample_vec : vec := mkVec 2 3 (Some 0).
Definition sample_machine : machine (T:=Z) := mkMachine {[0 := [Live 5%Z; Live 7%Z; Raw]]} 0.

(** Two objects: [[4]] with capacity 2 at address 0 (block 0), and
    [[5; 7]] with capacity 2 at address 1 (block 1). *)
Definition sample_world : world (T:=Z) :=
  mkWorld (<[0 := mkVec 1 2 (Some 0)]> {[1 := mkVec 2 2 (Some 1)]})
          (mkMachine (<[0 := [Live 4%Z; Raw]]> {[1 := [Live 5%Z; Live 7%Z]]}) 0).

(** ** Facts about memory actions *)

Section MemFacts.
Context {T : Type} (ops : ElemOps T).
Local Abbreviation slot := (@slot T).
Local Abbreviation machine := (@machine T).
Implicit Types (m : machine) (l A C : list slot).

Ltac unfold_monads :=
  unfold mbind, mret, mem_bind, mem_ret, M_bind, M_ret, W_bind, W_ret in *.

Lemma live_values_map (xs : list T) : live_values (map Live xs) = Some xs.
Proof. induction xs as [|x xs IH]; simpl; [done|]. by rewrite IH. Qed.

Lemma live_values_Some l xs : live_values l = Some xs -> l = map Live xs.
Proof.
  revert xs. induction l as [|[|x] l IH]; intros xs H; simpl in H.
  - by injection H as <-.
  - discriminate.
  - destruct (live_values l) as [ys|] eqn:E; simpl in H; [|discriminate].
    injection H as <-. simpl. f_equal. by apply IH.
Qed.

Lemma set_slot_ok b i s m l :
  heap m !! b = Some l -> i < length l ->
  set_slot b i s m = MOk tt (mkMachine (<[b := <[i := s]> l]> (heap m)) (ctor_count m)).
Proof.
  intros Hb Hi. unfold set_slot, load_block, put_block. unfold_monads.
  rewrite Hb. destruct (Nat.ltb_spec i (length l)); [done | lia].
Qed.

Lemma get_slot_ok b i m l s :
  heap m !! b = Some l -> l !! i = Some s -> get_slot b i m = MOk s m.
Proof. intros Hb Hi. unfold get_slot, load_block. unfold_monads. by rewrite Hb, Hi. Qed.

Lemma machine_eta m : mkMachine (heap m) (ctor_count m) = m.
Proof. by destruct m. Qed.

Lemma lookup_middle A (x : slot) C : (A ++ x :: C) !! length A = Some x.
Proof. rewrite lookup_app_r; [|lia]. by rewrite Nat.sub_diag. Qed.

Lemma insert_middle A (x y : slot) C : <[length A := y]> (A ++ x :: C) = A ++ y :: C.
Proof. rewrite <- (Nat.add_0_r (length A)), insert_app_r. done. Qed.

Lemma destroy_at_ok b A x C m :
  heap m !! b = Some (A ++ Live x :: C) ->
  destroy_at (Some b) (length A) m =
    MOk tt (mkMachine (<[b := A ++ Raw :: C]> (heap m)) (ctor_count m)).
Proof.
  intros Hb. unfold destroy_at, deref. unfold_monads.
  rewrite (get_slot_ok _ _ _ _ _ Hb (lookup_middle _ _ _)).
  rewrite (set_slot_ok _ _ _ _ _ Hb); [|rewrite length_app; simpl; lia].
  by rewrite insert_middle.
Qed.

(** [std::destroy] over live objects leaves raw storage. *)
Lemma destroy_ok b A (ys : list T) C m :
  heap m !! b = Some (A ++ map Live ys ++ C) ->
  destroy (Some b) (length A) (length ys) m =
    MOk tt (mkMachine (<[b := A ++ replicate (length ys) Raw ++ C]> (heap m)) (ctor_count m)).
Proof.
  revert A m. induction ys as [|y ys IH]; intros A m Hb; simpl.
  - simpl in Hb. by rewrite insert_id, machine_eta.
  - unfold_monads. simpl in Hb. rewrite (destroy_at_ok _ _ _ _ _ Hb).
    replace (S (length A)) with (length (A ++ [Raw])) by (rewrite length_app; simpl; lia).
    rewrite IH; simpl.
    + rewrite insert_insert_eq. by rewrite <- app_assoc.
    + rewrite lookup_insert_eq. by rewrite <- app_assoc.
Qed.

Lemma construct_at_ok b A x C mk m :
  heap m !! b = Some (A ++ x :: C) ->
  construct_at (Some b) (length A) mk m =
    match mk (ctor_count m) with
    | Some y => MOk tt (mkMachine (<[b := A ++ Live y :: C]> (heap m)) (S (ctor_count m)))
    | None => MExc ElementFailure (mkMachine (heap m) (S (ctor_count m)))
    end.
Proof.
  intros Hb. unfold construct_at, deref, tick. unfold_monads.
  destruct (mk (ctor_count m)) as [y|]; [|done].
  rewrite (set_slot_ok _ _ _ _ (A ++ x :: C)); simpl; [| done | rewrite length_app; simpl; lia].
  by rewrite insert_middle.
Qed.

Lemma move_construct_at_ok sb db Ls1 x Ls2 Ld1 s Ld2 j m :
  sb <> db -> length Ls1 = j -> length Ld1 = j ->
  heap m !! sb = Some (Ls1 ++ Live x :: Ls2) ->
  heap m !! db = Some (Ld1 ++ s :: Ld2) ->
  move_construct_at ops (Some db) j (Some sb) j m =
    match move_ctor ops (ctor_count m) x with
    | Some (y, x') =>
        MOk tt (mkMachine (<[db := Ld1 ++ Live y :: Ld2]> (<[sb := Ls1 ++ Live x' :: Ls2]> (heap m)))
                          (S (ctor_count m)))
    | None => MExc ElementFailure (mkMachine (heap m) (S (ctor_count m)))
    end.
Proof.
  intros Hne Hs1 Hd1 Hs Hd. unfold move_construct_at, deref, tick. unfold_monads.
  rewrite (get_slot_ok _ _ _ _ (Live x) Hs); [| subst j; apply lookup_middle].
  destruct (move_ctor ops (ctor_count m) x) as [[y x']|]; [|done].
  rewrite (set_slot_ok _ _ _ _ (Ls1 ++ Live x :: Ls2)); simpl;
    [| done | rewrite length_app; simpl; lia].
  rewrite (set_slot_ok _ _ _ _ (Ld1 ++ s :: Ld2)); simpl;
    [| by rewrite lookup_insert_ne | rewrite length_app; simpl; lia].
  subst j. rewrite insert_middle, <- Hd1, insert_middle. done.
Qed.

Lemma copy_construct_at_ok sb db Ls1 x Ls2 Ld1 s Ld2 j m :
  length Ls1 = j -> length Ld1 = j ->
  heap m !! sb = Some (Ls1 ++ Live x :: Ls2) ->
  heap m !! db = Some (Ld1 ++ s :: Ld2) ->
  copy_construct_at ops (Some db) j (Some sb) j m =
    match copy_ctor ops (ctor_count m) x with
    | Some y => MOk tt (mkMachine (<[db := Ld1 ++ Live y :: Ld2]> (heap m)) (S (ctor_count m)))
    | None => MExc ElementFailure (mkMachine (heap m) (S (ctor_count m)))
    end.
Proof.
  intros Hs1 Hd1 Hs Hd. unfold copy_construct_at, deref, tick. unfold_monads.
  rewrite (get_slot_ok _ _ _ _ (Live x) Hs); [| subst j; apply lookup_middle].
  destruct (copy_ctor ops (ctor_count m) x) as [y|]; [|done].
  rewrite (set_slot_ok _ _ _ _ (Ld1 ++ s :: Ld2)); simpl;
    [| done | rewrite length_app; simpl; lia].
  subst j. rewrite <- Hd1, insert_middle. done.
Qed.

(** A handler that rethrows never returns normally. *)
Lemma rethrow_not_ok {X Y : Type} (x : mem X) e m (b : Y) m' :
  (x ;; raise e) m <> MOk b m'.
Proof. unfold_monads. unfold raise. by destruct (x m). Qed.

Lemma map_Live_snoc A (xs : list T) y C :
  (A ++ map Live xs) ++ Live y :: C = A ++ map Live (xs ++ [y]) ++ C.
Proof. rewrite map_app, <- !app_assoc. done. Qed.

Lemma map_Live_snoc0 (xs : list T) y C :
  map Live xs ++ Live y :: C = map Live (xs ++ [y]) ++ C.
Proof. rewrite map_app, <- app_assoc. done. Qed.

(** The construction loop of [uninitialized_default_construct_n] and
    [uninitialized_fill_n], when it returns normally. *)
Lemma fill_loop_ok b A (done : list T) n C mk m m' :
  heap m !! b = Some (A ++ map Live done ++ replicate n Raw ++ C) ->
  uninit_loop (fun i => construct_at (Some b) (length A + i) mk) (Some b) (length A)
              (length done) n m = MOk tt m' ->
  exists ys, length ys = n /\ Forall (fun y => exists k, mk k = Some y) ys /\
    heap m' = <[b := A ++ map Live (done ++ ys) ++ C]> (heap m).
Proof.
  revert done m. induction n as [|n IH]; intros done m Hb Hrun; simpl in Hrun.
  - injection Hrun as <-. exists []. rewrite app_nil_r. simpl in Hb.
    split; [done|]. split; [done|]. by rewrite insert_id.
  - unfold_monads. unfold catch in Hrun.
    replace (length A + length done) with (length (A ++ map Live done)) in Hrun
      by (rewrite length_app, length_map; lia).
    rewrite app_assoc in Hb. simpl in Hb.
    rewrite (construct_at_ok _ _ _ _ _ _ Hb) in Hrun.
    destruct (mk (ctor_count m)) as [y|] eqn:Hy.
    + rewrite map_Live_snoc in Hrun.
      replace (S (length done)) with (length (done ++ [y])) in Hrun
        by (rewrite length_app; simpl; lia).
      apply IH in Hrun as (ys & Hlen & Hall & Hheap); simpl.
      * exists (y :: ys). split; [simpl; lia|]. split; [constructor; eauto|].
        rewrite Hheap; simpl. rewrite insert_insert_eq, <- app_assoc. done.
      * by rewrite lookup_insert_eq.
    + destruct (destroy (Some b) (length A) (length done) _); unfold raise in Hrun;
        discriminate.
Qed.

(** The transfer loop of [std::uninitialized_move], when it returns
    normally: each moved-to object is built by [T(T&&)] from the source
    object, which keeps a moved-from value. *)
Lemma move_loop_ok sb db (zs xs ys0 : list T) Cs Cd m m' :
  sb <> db -> length zs = length ys0 ->
  heap m !! sb = Some (map Live zs ++ map Live xs ++ Cs) ->
  heap m !! db = Some (map Live ys0 ++ replicate (length xs) Raw ++ Cd) ->
  uninit_loop (fun i => move_construct_at ops (Some db) (0 + i) (Some sb) (0 + i))
              (Some db) 0 (length ys0) (length xs) m = MOk tt m' ->
  exists ys zs',
    Forall2 (fun x y => exists k x', move_ctor ops k x = Some (y, x')) xs ys /\
    length zs' = length xs /\
    heap m' = <[db := map Live (ys0 ++ ys) ++ Cd]> (<[sb := map Live (zs ++ zs') ++ Cs]> (heap m)).
Proof.
  intros Hne. revert zs ys0 m. induction xs as [|x xs IH]; intros zs ys0 m Hlen Hs Hd Hrun;
    simpl in Hrun.
  - injection Hrun as <-. exists [], []. rewrite !app_nil_r. simpl in *.
    split; [done|]. split; [done|].
    rewrite (insert_id (heap m) sb); [|done]. by rewrite insert_id.
  - unfold_monads. unfold catch in Hrun. simpl in Hs, Hd.
    assert (E1 : length (map Live zs) = length ys0) by (rewrite length_map; lia).
    assert (E2 : length (map Live ys0) = length ys0) by (by rewrite length_map).
    rewrite (move_construct_at_ok _ _ _ _ _ _ _ _ _ _ Hne E1 E2 Hs Hd) in Hrun.
    destruct (move_ctor ops (ctor_count m) x) as [[y x']|] eqn:Hmv.
    + rewrite !map_Live_snoc0 in Hrun.
      replace (S (length ys0)) with (length (ys0 ++ [y])) in Hrun
        by (rewrite length_app; simpl; lia).
      apply IH with (zs := zs ++ [x']) in Hrun as (ys & zs' & Hall & Hlen' & Hheap); simpl.
      * exists (y :: ys), (x' :: zs'). split; [constructor; eauto|]. split; [simpl; lia|].
        rewrite Hheap; simpl. rewrite <- !app_assoc. simpl.
        rewrite (insert_insert_ne (<[sb:=_]> (heap m)) sb db); [|done].
        by rewrite !insert_insert_eq.
      * rewrite !length_app; simpl; lia.
      * by rewrite lookup_insert_ne, lookup_insert_eq.
      * by rewrite lookup_insert_eq.
    + destruct (destroy (Some db) 0 (length ys0) _); unfold raise in Hrun; discriminate.
Qed.

(** The loop of [std::uninitialized_copy], when it returns normally. *)
Lemma copy_loop_ok sb db (zs xs ys0 : list T) Cs Cd m m' :
  sb <> db -> length zs = length ys0 ->
  heap m !! sb = Some (map Live zs ++ map Live xs ++ Cs) ->
  heap m !! db = Some (map Live ys0 ++ replicate (length xs) Raw ++ Cd) ->
  uninit_loop (fun i => copy_construct_at ops (Some db) (0 + i) (Some sb) (0 + i))
              (Some db) 0 (length ys0) (length xs) m = MOk tt m' ->
  exists ys,
    Forall2 (fun x y => exists k, copy_ctor ops k x = Some y) xs ys /\
    heap m' = <[db := map Live (ys0 ++ ys) ++ Cd]> (heap m).
Proof.
  intros Hne. revert zs ys0 m. induction xs as [|x xs IH]; intros zs ys0 m Hlen Hs Hd Hrun;
    simpl in Hrun.
  - injection Hrun as <-. exists []. rewrite !app_nil_r. simpl in *.
    split; [done|]. by rewrite insert_id.
  - unfold_monads. unfold catch in Hrun. simpl in Hs, Hd.
    assert (E1 : length (map Live zs) = length ys0) by (rewrite length_map; lia).
    assert (E2 : length (map Live ys0) = length ys0) by (by rewrite length_map).
    rewrite (copy_construct_at_ok _ _ _ _ _ _ _ _ _ _ E1 E2 Hs Hd) in Hrun.
    destruct (copy_ctor ops (ctor_count m) x) as [y|] eqn:Hcp.
    + rewrite map_Live_snoc0 in Hrun.
      replace (S (length ys0)) with (length (ys0 ++ [y])) in Hrun
        by (rewrite length_app; simpl; lia).
      apply IH with (zs := zs ++ [x]) in Hrun as (ys & Hall & Hheap); simpl.
      * exists (y :: ys). split; [constructor; eauto|].
        rewrite Hheap; simpl. rewrite <- !app_assoc. simpl. by rewrite insert_insert_eq.
      * rewrite !length_app; simpl; lia.
      * rewrite lookup_insert_ne; [|done]. rewrite map_app, <- !app_assoc. done.
      * by rewrite lookup_insert_eq.
    + destruct (destroy (Some db) 0 (length ys0) _); unfold raise in Hrun; discriminate.
Qed.

(** When [std::uninitialized_copy] throws, only the destination block has
    changed. *)
Lemma copy_loop_exc sb db (zs xs ys0 : list T) Cs Cd m e m' :
  sb <> db -> length zs = length ys0 ->
  heap m !! sb = Some (map Live zs ++ map Live xs ++ Cs) ->
  heap m !! db = Some (map Live ys0 ++ replicate (length xs) Raw ++ Cd) ->
  uninit_loop (fun i => copy_construct_at ops (Some db) (0 + i) (Some sb) (0 + i))
              (Some db) 0 (length ys0) (length xs) m = MExc e m' ->
  exists l', heap m' = <[db := l']> (heap m).
Proof.
  intros Hne. revert zs ys0 m. induction xs as [|x xs IH]; intros zs ys0 m Hlen Hs Hd Hrun;
    simpl in Hrun.
  - discriminate.
  - unfold_monads. unfold catch in Hrun. simpl in Hs, Hd.
    assert (E1 : length (map Live zs) = length ys0) by (rewrite length_map; lia).
    assert (E2 : length (map Live ys0) = length ys0) by (by rewrite length_map).
    rewrite (copy_construct_at_ok _ _ _ _ _ _ _ _ _ _ E1 E2 Hs Hd) in Hrun.
    destruct (copy_ctor ops (ctor_count m) x) as [y|] eqn:Hcp.
    + rewrite map_Live_snoc0 in Hrun.
      replace (S (length ys0)) with (length (ys0 ++ [y])) in Hrun
        by (rewrite length_app; simpl; lia).
      apply IH with (zs := zs ++ [x]) in Hrun as (l' & Hheap); simpl.
      * exists l'. rewrite Hheap; simpl. by rewrite insert_insert_eq.
      * rewrite !length_app; simpl; lia.
      * rewrite lookup_insert_ne; [|done]. rewrite map_app, <- !app_assoc. done.
      * by rewrite lookup_insert_eq.
    + rewrite (destroy_ok db [] ys0 (Raw :: replicate (length xs) Raw ++ Cd)) in Hrun;
        [| simpl; done].
      unfold raise in Hrun. injection Hrun as <- <-. simpl. eauto.
Qed.

(** ** Vectors in memory *)

Lemma forallb_is_raw l : forallb is_raw l = true -> l = replicate (length l) Raw.
Proof.
  induction l as [|[|x] l IH]; simpl; intros H; [done| |discriminate].
  f_equal. by apply IH.
Qed.

Lemma forallb_is_raw_replicate n : forallb is_raw (replicate n (@Raw T)) = true.
Proof. induction n; simpl; auto. Qed.

Lemma stored_wf v m xs : stored v m xs -> wf v m = true.
Proof.
  intros (Hlen & Hle & Hd). unfold wf, rep_ok.
  apply andb_true_intro; split.
  - apply andb_true_intro; split; [apply Nat.leb_le; lia|].
    destruct (data_ v); [apply Nat.ltb_lt; lia | done].
  - destruct (data_ v) as [b|]; [|by apply Nat.eqb_eq].
    destruct Hd as [Hpos Hb]. rewrite Hb.
    rewrite <- Hlen, take_app_length', drop_app_length' by (by rewrite length_map).
    rewrite live_values_map, forallb_is_raw_replicate, length_app, length_map,
      length_replicate, andb_true_r, andb_true_r. apply Nat.eqb_eq. lia.
Qed.

Lemma wf_stored v m : wf v m = true -> exists xs, stored v m xs.
Proof.
  unfold wf, rep_ok. intros H.
  apply andb_prop in H as [H1 H2]. apply andb_prop in H1 as [Hle Hd].
  apply Nat.leb_le in Hle.
  destruct (data_ v) as [b|] eqn:Ed.
  - apply Nat.ltb_lt in Hd. destruct (heap m !! b) as [l|] eqn:Hb; [|discriminate].
    apply andb_prop in H2 as [H2 Hraw]. apply andb_prop in H2 as [Hlen Hlive].
    apply Nat.eqb_eq in Hlen.
    destruct (live_values (take (size_ v) l)) as [xs|] eqn:Hxs; [|discriminate].
    apply live_values_Some in Hxs. apply forallb_is_raw in Hraw.
    exists xs. unfold stored. rewrite Ed.
    assert (length xs = size_ v) as Hxl.
    { rewrite <- (length_map Live xs), <- Hxs, length_take. lia. }
    split; [done|]. split; [done|]. split; [done|].
    rewrite Hb. f_equal. rewrite <- Hxs.
    rewrite <- (take_drop (size_ v) l) at 1. f_equal.
    rewrite Hraw, length_drop, Hlen. done.
  - apply Nat.eqb_eq in H2. exists []. unfold stored. rewrite Ed. simpl. lia.
Qed.

Lemma stored_contents v m xs : stored v m xs -> contents v m = Some xs.
Proof.
  intros (Hlen & Hle & Hd). unfold contents.
  destruct (data_ v) as [b|].
  - destruct Hd as [_ Hb]. rewrite Hb, length_app, length_map, length_replicate.
    destruct (Nat.leb_spec (size_ v) (length xs + (capacity_ v - size_ v))); [|lia].
    rewrite <- Hlen, take_app_length' by (by rewrite length_map).
    apply live_values_map.
  - destruct xs; simpl in Hlen; [|lia]. rewrite <- Hlen. done.
Qed.

Lemma stored_unique v m xs ys : stored v m xs -> stored v m ys -> xs = ys.
Proof.
  intros H1 H2. apply stored_contents in H1, H2. congruence.
Qed.

Lemma Allocate_ok n m :
  n <> 0 ->
  Allocate n m = MOk (Some (fresh (dom (heap m))))
    (mkMachine (<[fresh (dom (heap m)) := replicate n Raw]> (heap m)) (ctor_count m)).
Proof. intros Hn. unfold Allocate. by rewrite (proj2 (Nat.eqb_neq n 0) Hn). Qed.

Lemma fresh_block m : heap m !! fresh (dom (heap m)) = None.
Proof. apply not_elem_of_dom_1, is_fresh. Qed.

Lemma Deallocate_ok b l m :
  heap m !! b = Some l ->
  Deallocate (Some b) m = MOk tt (mkMachine (delete b (heap m)) (ctor_count m)).
Proof. intros Hb. unfold Deallocate. by rewrite Hb. Qed.

End MemFacts.

(** ** The growth step and the member functions built on it, and the
    representation invariant *)

Section Growth.
Context {T : Type} (ops : ElemOps T).
Local Abbreviation slot := (@slot T).
Local Abbreviation machine := (@machine T).
Implicit Types (m : machine) (l A C : list slot).

Ltac unfold_monads :=
  unfold mbind, mret, mem_bind, mem_ret, M_bind, M_ret, W_bind, W_ret in *.

Lemma catch_rethrow_ok {X} (x : mem X) h m a m' :
  (forall e m1 a' m2, h e m1 <> MOk a' m2) ->
  catch x h m = MOk a m' -> x m = MOk a m'.
Proof.
  intros Hh. unfold catch. destruct (x m); [done| |done].
  intros Habs. by apply Hh in Habs.
Qed.

(** The handler of the growth step always rethrows. *)
Lemma grow_handler_rethrows nb n e m1 (a : unit) m2 :
  (destroy (T:=T) (Some nb) 0 n ;; Deallocate (Some nb) ;; raise e) m1 <> MOk a m2.
Proof.
  unfold_monads. unfold raise.
  destruct (destroy _ _ _ m1) as [? m'| |]; [|done|done].
  by destruct (Deallocate _ m').
Qed.

Lemma stored_block (xs : list T) n N b h c :
  length xs = n -> n <= N -> 0 < N ->
  stored (mkVec n N (Some b)) (mkMachine (<[b := map Live xs ++ replicate (N - n) Raw]> h) c) xs.
Proof. intros. unfold stored; simpl. rewrite lookup_insert_eq. auto. Qed.

(** [uninitialized_default_construct_n] and [uninitialized_fill_n] on raw
    storage, when they return normally. *)
Lemma default_fill_ok b A n C m m' :
  heap m !! b = Some (A ++ replicate n Raw ++ C) ->
  uninitialized_default_construct_n ops (Some b) (length A) n m = MOk tt m' ->
  exists ys, length ys = n /\ Forall (fun y => exists k, default_ctor ops k = Some y) ys /\
    heap m' = <[b := A ++ map Live ys ++ C]> (heap m).
Proof. intros Hb Hrun. by apply (fill_loop_ok b A [] n C _ m m'). Qed.

Lemma value_fill_ok b A n C value m m' :
  heap m !! b = Some (A ++ replicate n Raw ++ C) ->
  uninitialized_fill_n ops (Some b) (length A) n value m = MOk tt m' ->
  exists ys, length ys = n /\ Forall (fun y => exists k, copy_ctor ops k value = Some y) ys /\
    heap m' = <[b := A ++ map Live ys ++ C]> (heap m).
Proof. intros Hb Hrun. by apply (fill_loop_ok b A [] n C _ m m'). Qed.

Hypothesis move_faithful : forall k x y x', move_ctor ops k x = Some (y, x') -> y = x.

Lemma moved_eq (xs ys : list T) :
  Forall2 (fun x y => exists k x', move_ctor ops k x = Some (y, x')) xs ys -> ys = xs.
Proof.
  induction 1 as [|x y xs ys (k & x' & Hm) _ IH]; [done|].
  apply move_faithful in Hm. by subst.
Qed.

Lemma grow_ok v m xs N construct (Q : list T -> Prop) s' :
  stored v m xs -> size_ v <= N -> N <> 0 ->
  (forall b m1 m2,
     heap m1 !! b = Some (map Live xs ++ replicate (N - size_ v) Raw) ->
     construct (Some b) m1 = MOk tt m2 ->
     exists zs, Q zs /\
       heap m2 = <[b := map Live (xs ++ zs) ++ replicate (N - size_ v - length zs) Raw]> (heap m1)) ->
  grow ops v N construct (v, m) = Ok tt s' ->
  exists zs c, Q zs /\
    s' = (mkVec (size_ v) N (Some (fresh (dom (heap m)))),
          mkMachine (<[fresh (dom (heap m)) :=
                         map Live (xs ++ zs) ++ replicate (N - size_ v - length zs) Raw]>
                       (release (data_ v) (heap m))) c).
Proof.
  intros (Hlen & Hle & Hd) HN HN0 Hcons Hrun.
  pose proof (fresh_block m) as Hnb. set (nb := fresh (dom (heap m))) in *.
  unfold grow, lift, set_data, set_capacity, this, set_this in Hrun.
  unfold mbind, mret, M_bind, M_ret in Hrun.
  cbn [fst snd] in Hrun. rewrite Allocate_ok in Hrun by done. fold nb in Hrun.
  set (m0 := mkMachine (<[nb := replicate N Raw]> (heap m)) (ctor_count m)) in Hrun.
  cbn [fst snd] in Hrun.
  match type of Hrun with context [catch ?x ?h m0] =>
    destruct (catch x h m0) as [[] m2|e m2|] eqn:Hc; [|discriminate|discriminate] end.
  apply catch_rethrow_ok in Hc; [|intros; apply grow_handler_rethrows].
  unfold mem_bind in Hc.
  destruct (uninitialized_move ops (data_ v) 0 (Some nb) 0 (size_ v) m0) as [[] m1| |]
    eqn:Hmv; [|discriminate|discriminate].
  destruct (data_ v) as [ob|] eqn:Ed.
  - destruct Hd as [Hcap Hob].
    assert (ob <> nb) as Hne by (intros ->; congruence).
    unfold uninitialized_move in Hmv. rewrite <- Hlen in Hmv.
    apply (move_loop_ok ops ob nb [] xs [] (replicate (capacity_ v - size_ v) Raw)
             (replicate (N - size_ v) Raw) m0 m1) in Hmv as (ys & zs' & Hys & Hzs' & Hm1);
      [| done | done | simpl; by rewrite lookup_insert_ne | ].
    2: { simpl. rewrite lookup_insert_eq, <- replicate_add. do 2 f_equal. lia. }
    apply moved_eq in Hys as ->. simpl in Hm1.
    apply Hcons in Hc as (zs & HQ & Hm2).
    2: { rewrite Hm1, lookup_insert_eq. done. }
    exists zs. cbn [fst snd] in Hrun.
    replace (size_ v) with (length zs') in Hrun by lia.
    rewrite (destroy_ok ob [] zs' (replicate (capacity_ v - size_ v) Raw)) in Hrun.
    2: { rewrite Hm2, lookup_insert_ne, Hm1, lookup_insert_ne, lookup_insert_eq by done. done. }
    cbn [fst snd] in Hrun. erewrite Deallocate_ok in Hrun; [|simpl; apply lookup_insert_eq].
    cbn [fst snd size_ data_] in Hrun. injection Hrun as <-.
    eexists. split; [done|]. do 2 f_equal. simpl.
    rewrite Hm2, Hm1. simpl.
    rewrite delete_insert_eq, delete_insert_ne, delete_insert_ne, insert_insert_eq,
      delete_insert_eq, delete_insert_ne, insert_insert_eq by done.
    done.
  - subst m0. destruct xs as [|x xs]; [|simpl in Hlen; lia]. simpl in Hlen.
    rewrite <- Hlen in Hmv. simpl in Hmv. injection Hmv as <-.
    apply Hcons in Hc as (zs & HQ & Hm2).
    2: { simpl. rewrite lookup_insert_eq, <- Hlen, Nat.sub_0_r. done. }
    exists zs. cbn [fst snd] in Hrun. rewrite <- Hlen in Hrun. simpl in Hrun.
    injection Hrun as <-. exists (ctor_count m2). split; [done|]. do 2 f_equal.
    rewrite <- (machine_eta m2) at 1. rewrite Hm2. simpl. by rewrite insert_insert_eq.
Qed.

(** The body shared by [PushBack] and [EmplaceBack], when it returns
    normally: one more element, made by [mk], and the capacity rule. *)
Lemma grow_push_ok v m xs mk s' :
  stored v m xs ->
  grow_push ops (fun p i => construct_at p i mk) (v, m) = Ok tt s' ->
  exists y k, mk k = Some y /\ stored (fst s') (snd s') (xs ++ [y]) /\
    size_ (fst s') = S (size_ v) /\
    capacity_ (fst s') = (if size_ v =? capacity_ v
                          then (if capacity_ v =? 0 then 1 else capacity_ v * 2)
                          else capacity_ v).
Proof.
  intros Hst Hrun. pose proof Hst as (Hlen & Hle & Hd).
  unfold grow_push, this, set_size, set_this in Hrun.
  unfold mbind, mret, M_bind, M_ret in Hrun. cbn [fst snd] in Hrun.
  destruct (Nat.eqb_spec (size_ v) (capacity_ v)) as [Heq|Hneq].
  - set (N := if capacity_ v =? 0 then 1 else capacity_ v * 2) in *.
    assert (size_ v < N) as HN.
    { subst N. destruct (Nat.eqb_spec (capacity_ v) 0); lia. }
    destruct (grow ops v N _ (v, m)) as [[] s1| |] eqn:Hg; [|discriminate|discriminate].
    apply (grow_ok v m xs N _ (fun zs => exists y k, zs = [y] /\ mk k = Some y)) in Hg
      as (zs & c & (y & k & -> & Hy) & ->); [| done | lia | lia | ].
    + cbn in Hrun. injection Hrun as <-. exists y, k. split; [done|]. simpl.
      split; [|split; done].
      replace (N - size_ v - 1) with (N - S (size_ v)) by lia.
      apply stored_block; [rewrite length_app; simpl; lia | lia | lia].
    + intros b m1 m2 Hb Hc.
      replace (N - size_ v) with (S (N - size_ v - 1)) in Hb by lia. simpl in Hb.
      rewrite <- Hlen, <- (length_map Live xs) in Hc.
      rewrite (construct_at_ok _ _ _ _ _ _ Hb) in Hc.
      destruct (mk (ctor_count m1)) as [y|] eqn:Hy; [|discriminate].
      injection Hc as <-. exists [y]. split; [eauto|]. simpl.
      rewrite map_Live_snoc0. do 3 f_equal; lia.
  - destruct (data_ v) as [ob|] eqn:Ed; [|lia]. destruct Hd as [Hcap Hob].
    replace (capacity_ v - size_ v) with (S (capacity_ v - size_ v - 1)) in Hob by lia.
    simpl in Hob. unfold lift in Hrun. cbn [fst snd] in Hrun.
    rewrite <- Hlen, <- (length_map Live xs) in Hrun.
    rewrite (construct_at_ok _ _ _ _ _ _ Hob) in Hrun.
    destruct (mk (ctor_count m)) as [y|] eqn:Hy; [|discriminate].
    cbn in Hrun. injection Hrun as <-. exists y, (ctor_count m). split; [done|]. simpl.
    split; [|split; done].
    unfold stored; simpl. rewrite Ed, lookup_insert_eq, length_app, map_Live_snoc0. simpl.
    split; [lia|]. split; [lia|]. split; [lia|]. do 3 f_equal. lia.
Qed.

(** [Resize_with fill n], when it returns normally, for a [fill] that
    constructs objects satisfying [P] in raw storage and touches nothing
    else. *)
Lemma Resize_with_ok fill (P : T -> Prop) v m xs n s' :
  (forall b A k C m1 m2,
     heap m1 !! b = Some (A ++ replicate k Raw ++ C) ->
     fill (Some b) (length A) k m1 = MOk tt m2 ->
     exists ys, length ys = k /\ Forall P ys /\ heap m2 = <[b := A ++ map Live ys ++ C]> (heap m1)) ->
  (forall p off m1 m2, fill p off 0 m1 = MOk tt m2 -> m2 = m1) ->
  stored v m xs ->
  Resize_with ops fill n (v, m) = Ok tt s' ->
  exists ys, length ys = n - size_ v /\ Forall P ys /\
    size_ (fst s') = n /\ stored (fst s') (snd s') (take n xs ++ ys) /\
    (capacity_ v < n -> capacity_ (fst s') = n) /\
    (n <= capacity_ v ->
       fst s' = mkVec n (capacity_ v) (data_ v) /\
       heap (snd s') = match data_ v with
                       | Some b => <[b := map Live (take n xs ++ ys) ++
                                            replicate (capacity_ v - n) Raw]> (heap m)
                       | None => heap m
                       end).
Proof.
  intros Hfill Hfill0 Hst Hrun. pose proof Hst as (Hlen & Hle & Hd).
  unfold Resize_with, this, set_size, set_this in Hrun.
  unfold mbind, mret, M_bind, M_ret in Hrun. cbn [fst snd] in Hrun.
  destruct (Nat.ltb_spec (capacity_ v) n) as [Hgt|Hngt].
  - destruct (grow ops v n _ (v, m)) as [[] s1| |] eqn:Hg; [|discriminate|discriminate].
    apply (grow_ok v m xs n _ (fun ys => length ys = n - size_ v /\ Forall P ys)) in Hg
      as (ys & c & (Hys & HP) & ->); [| done | lia | lia | ].
    + cbn in Hrun. injection Hrun as <-. exists ys. split; [done|]. split; [done|].
      split; [done|]. rewrite take_ge by lia. split; [|split; [done|lia]].
      simpl. replace (n - size_ v - length ys) with (n - n) by lia.
      apply stored_block; [rewrite length_app; lia | lia | lia].
    + intros b m1 m2 Hb Hc.
      rewrite <- (app_nil_r (replicate (n - size_ v) Raw)) in Hb.
      replace (fill (Some b) (size_ v)) with (fill (Some b) (length (map Live xs))) in Hc
        by (by rewrite length_map, Hlen).
      apply (Hfill b (map Live xs) (n - size_ v) [] m1 m2 Hb) in Hc as (ys & Hys & HP & Hm2).
      exists ys. split; [done|]. rewrite Hm2, Hys.
      rewrite Nat.sub_diag, map_app, <- app_assoc. done.
  - destruct (Nat.ltb_spec n (size_ v)) as [Hlt|Hnlt].
    + destruct (data_ v) as [ob|] eqn:Ed; [|lia]. destruct Hd as [Hcap Hob].
      unfold lift in Hrun. cbn [fst snd] in Hrun.
      rewrite <- (take_drop n xs), map_app, <- app_assoc in Hob.
      assert (length (map Live (take n xs)) = n) as E1 by (rewrite length_map, length_take; lia).
      assert (length (drop n xs) = size_ v - n) as E2 by (rewrite length_drop; lia).
      replace (destroy (T:=T) (Some ob) n (size_ v - n)) with
        (destroy (T:=T) (Some ob) (length (map Live (take n xs))) (length (drop n xs))) in Hrun
        by (by rewrite E1, E2).
      rewrite (destroy_ok _ _ _ _ _ Hob) in Hrun.
      cbn in Hrun. injection Hrun as <-. exists []. simpl. rewrite app_nil_r.
      split; [lia|]. split; [done|]. split; [done|].
      assert (replicate (size_ v - n) (@Raw T) ++ replicate (capacity_ v - size_ v) Raw =
              replicate (capacity_ v - n) Raw) as Er
        by (rewrite <- replicate_add; f_equal; lia).
      rewrite E2, Er, Ed. split; [|split; [lia|done]].
      unfold stored; simpl. rewrite lookup_insert_eq, length_take.
      split; [lia|]. split; [lia|]. done.
    + destruct (data_ v) as [ob|] eqn:Ed.
      * destruct Hd as [Hcap Hob]. unfold lift in Hrun. cbn [fst snd] in Hrun.
        assert (replicate (capacity_ v - size_ v) (@Raw T) =
                replicate (n - size_ v) Raw ++ replicate (capacity_ v - n) Raw) as Er
          by (rewrite <- replicate_add; f_equal; lia).
        rewrite Er in Hob.
        replace (fill (Some ob) (size_ v)) with (fill (Some ob) (length (map Live xs))) in Hrun
          by (by rewrite length_map, Hlen).
        destruct (fill (Some ob) (length (map Live xs)) (n - size_ v) m) as [[] m2| |] eqn:Hc;
          [|discriminate|discriminate].
        apply (Hfill _ _ _ _ _ _ Hob) in Hc as (ys & Hys & HP & Hm2).
        cbn in Hrun. injection Hrun as <-. rewrite take_ge by lia.
        exists ys. split; [done|]. split; [done|]. split; [done|].
        rewrite Ed, map_app, <- app_assoc. split; [|split; [lia|done]].
        unfold stored; simpl. rewrite Hm2, lookup_insert_eq, length_app.
        split; [lia|]. split; [lia|]. split; [lia|]. rewrite map_app, <- app_assoc. done.
      * assert (n = 0) as -> by lia. assert (size_ v = 0) as Hs0 by lia.
        unfold lift in Hrun. cbn [fst snd] in Hrun. rewrite Hs0 in Hrun.
        destruct (fill None 0 (0 - 0) m) as [[] m2| |] eqn:Hc; [|discriminate|discriminate].
        apply Hfill0 in Hc as ->. cbn in Hrun. injection Hrun as <-.
        exists []. simpl. split; [lia|]. split; [done|]. split; [done|].
        rewrite Ed. split; [|split; [lia|done]].
        destruct xs; [|simpl in Hlen; lia]. unfold stored; simpl. lia.
Qed.

(** The growth step of [Reserve] and [ShrinkToFit], which construct nothing. *)
Lemma relocate_ok v m xs N s' :
  stored v m xs -> size_ v <= N -> N <> 0 ->
  grow ops v N (fun _ => mret tt) (v, m) = Ok tt s' ->
  exists c, s' = (mkVec (size_ v) N (Some (fresh (dom (heap m)))),
                  mkMachine (<[fresh (dom (heap m)) := map Live xs ++ replicate (N - size_ v) Raw]>
                               (release (data_ v) (heap m))) c).
Proof.
  intros Hst HN HN0 Hg.
  apply (grow_ok v m xs N _ (fun zs => zs = [])) in Hg as (zs & c & -> & ->); [| done | done | done | ].
  - exists c. by rewrite app_nil_r, Nat.sub_0_r.
  - intros b m1 m2 Hb Hc. injection Hc as <-. exists []. split; [done|].
    rewrite app_nil_r, Nat.sub_0_r. by rewrite insert_id.
Qed.

(** [Reserve(new_cap)], when it returns normally. *)
Lemma Reserve_ok v m xs new_cap s' :
  stored v m xs -> Reserve ops new_cap (v, m) = Ok tt s' ->
  stored (fst s') (snd s') xs /\ size_ (fst s') = size_ v /\
  capacity_ (fst s') = Nat.max (capacity_ v) new_cap.
Proof.
  intros Hst Hrun. pose proof Hst as (Hlen & Hle & Hd).
  unfold Reserve, this in Hrun. unfold mbind, mret, M_bind, M_ret in Hrun. cbn [fst snd] in Hrun.
  destruct (Nat.ltb_spec (capacity_ v) new_cap).
  - apply relocate_ok with (xs := xs) in Hrun as (c & ->); [|done|lia|lia].
    simpl. split; [|split; [done|lia]].
    apply stored_block; [done|lia|lia].
  - injection Hrun as <-. simpl. split; [done|]. split; [done|lia].
Qed.

(** [ShrinkToFit()], when it returns normally. *)
Lemma ShrinkToFit_ok v m xs s' :
  stored v m xs -> ShrinkToFit ops (v, m) = Ok tt s' ->
  stored (fst s') (snd s') xs /\ size_ (fst s') = size_ v /\ capacity_ (fst s') = size_ v /\
  (size_ v = 0 -> data_ (fst s') = None /\ heap (snd s') = release (data_ v) (heap m)) /\
  (0 < size_ v < capacity_ v ->
     data_ (fst s') = Some (fresh (dom (heap m))) /\
     heap (snd s') = <[fresh (dom (heap m)) := map Live xs]> (release (data_ v) (heap m))) /\
  (size_ v = capacity_ v -> s' = (v, m)).
Proof.
  intros Hst Hrun. pose proof Hst as (Hlen & Hle & Hd).
  unfold ShrinkToFit, this in Hrun. unfold mbind, mret, M_bind, M_ret in Hrun. cbn [fst snd] in Hrun.
  destruct (Nat.eqb_spec (size_ v) 0) as [Hz|Hnz].
  - unfold lift, set_data, set_capacity, this, set_this in Hrun. cbn [fst snd] in Hrun.
    destruct xs; [|simpl in Hlen; lia].
    destruct (data_ v) as [ob|] eqn:Ed.
    + destruct Hd as [Hcap Hob].
      rewrite (Deallocate_ok _ _ _ Hob) in Hrun. cbn in Hrun. injection Hrun as <-.
      simpl. split; [unfold stored; simpl; lia|]. split; [done|]. split; [done|].
      split; [done|]. split; [lia|]. lia.
    + cbn in Hrun. injection Hrun as <-. simpl.
      split; [unfold stored; simpl; lia|]. split; [done|]. split; [done|].
      split; [done|]. split; [lia|]. intros. destruct v; simpl in *; subst; done.
  - destruct (Nat.ltb_spec (size_ v) (capacity_ v)).
    + apply relocate_ok with (xs := xs) in Hrun as (c & ->); [|done|lia|lia].
      simpl. rewrite Nat.sub_diag, app_nil_r.
      split; [|split; [done|split; [done|split; [lia|split; [done|lia]]]]].
      unfold stored; simpl. rewrite lookup_insert_eq, Nat.sub_diag, app_nil_r.
      split; [done|]. split; [lia|]. split; [lia|done].
    + injection Hrun as <-. simpl. split; [done|]. split; [done|]. split; [lia|].
      split; [lia|]. split; [lia|]. done.
Qed.

Ltac case_all :=
  repeat match goal with
  | |- context [match ?x with _ => _ end] =>
      lazymatch x with
      | match _ with _ => _ end => fail
      | _ => destruct x eqn:?
      end
  end.

Lemma Allocate_Some N m p m' : Allocate (T:=T) N m = MOk p m' -> p <> None -> N <> 0.
Proof. unfold Allocate. destruct (Nat.eqb_spec N 0); [|done]. intros [= <-]. done. Qed.

Lemma grow_vec v N c m :
  match grow ops v N c (v, m) with
  | Ok _ (v', _) => exists d, v' = mkVec (size_ v) N d /\ (d <> None -> N <> 0)
  | Exc _ (v', _) => v' = v
  | UB => True
  end.
Proof.
  unfold grow, lift, set_data, set_capacity, this, set_this.
  unfold mbind, mret, M_bind, M_ret, mem_bind, mem_ret. cbn [fst snd].
  case_all; simpl; try done.
  eexists. split; [done|]. by eapply Allocate_Some.
Qed.

Lemma rep_ok_iff v :
  rep_ok v = true <-> size_ v <= capacity_ v /\ (data_ v <> None -> 0 < capacity_ v).
Proof.
  unfold rep_ok. rewrite andb_true_iff, Nat.leb_le.
  destruct (data_ v); simpl; [rewrite Nat.ltb_lt|]; naive_solver.
Qed.

Ltac rep_solve :=
  unfold rep_kept; simpl;
  repeat match goal with
  | H : rep_ok _ = true |- _ => apply rep_ok_iff in H as [? ?]; simpl in *
  | H : (_ <? _) = true |- _ => apply Nat.ltb_lt in H
  | H : (_ <? _) = false |- _ => apply Nat.ltb_ge in H
  | H : (_ =? _) = true |- _ => apply Nat.eqb_eq in H
  | H : (_ =? _) = false |- _ => apply Nat.eqb_neq in H
  | H : exists d, _ = _ /\ _ |- _ => destruct H as (? & -> & ?)
  end;
  repeat match goal with H : data_ _ = _ |- _ => rewrite H in * end;
  try (apply rep_ok_iff; simpl; split; [lia|]);
  try done; try (intros; lia);
  intros;
  repeat match goal with
  | H : data_ ?x <> None -> _, H' : data_ ?x <> None |- _ => specialize (H H')
  | H : Some _ <> None -> _ |- _ => specialize (H ltac:(discriminate))
  end;
  lia.

Lemma grow_rep v N c m :
  rep_ok v = true -> size_ v <= N ->
  rep_kept (grow ops v N c (v, m)).
Proof.
  intros Hv HN. pose proof (grow_vec v N c m) as G. unfold rep_kept.
  destruct (grow ops v N c (v, m)) as [? [? ?]|? [? ?]|]; [| by subst |done].
  destruct G as (d & -> & Hd). apply rep_ok_iff. simpl. split; [lia|].
  intros Hs. specialize (Hd Hs). lia.
Qed.

Ltac case_step :=
  match goal with
  | |- context [match ?x with _ => _ end] =>
      lazymatch x with
      | match _ with _ => _ end => fail
      | (match _ with _ => _ end) _ => fail
      | grow _ _ _ _ _ => fail
      | _ => destruct x eqn:?
      end
  end.

Ltac grow_step :=
  match goal with
  | |- context [match grow ops ?v ?N ?c (?v, ?m) with _ => _ end] =>
      let G := fresh "G" in
      pose proof (grow_vec v N c m) as G;
      destruct (grow ops v N c (v, m)) as [? [? ?]|? [? ?]|]; simpl in G;
      [destruct G as (? & -> & ?) | subst | ]
  end.

Ltac rep_run :=
  unfold rep_kept, set_size, set_capacity, set_data;
  unfold mbind, mret, M_bind, M_ret, lift, this, set_this;
  cbn [fst snd];
  repeat (first [grow_step | case_step]; cbv beta iota in * ); rep_solve.

Lemma Resize_with_rep fill n v m :
  rep_ok v = true -> rep_kept (Resize_with ops fill n (v, m)).
Proof. intros Hv. unfold Resize_with. rep_run. Qed.

Lemma Reserve_rep n v m : rep_ok v = true -> rep_kept (Reserve ops n (v, m)).
Proof. intros Hv. unfold Reserve. rep_run. Qed.

Lemma ShrinkToFit_rep v m : rep_ok v = true -> rep_kept (ShrinkToFit ops (v, m)).
Proof. intros Hv. unfold ShrinkToFit. rep_run. Qed.

Lemma grow_push_rep construct v m :
  rep_ok v = true -> rep_kept (grow_push ops construct (v, m)).
Proof. intros Hv. unfold grow_push. rep_run. Qed.

Lemma Clear_rep v m : rep_ok v = true -> rep_kept (Clear (T:=T) (v, m)).
Proof. intros Hv. unfold Clear. rep_run. Qed.

Lemma PopBack_rep v m : rep_ok v = true -> rep_kept (PopBack (T:=T) (v, m)).
Proof. intros Hv. unfold PopBack. rep_run. Qed.

Lemma At_rep i v m : rep_ok v = true -> rep_kept (At (T:=T) i (v, m)).
Proof. intros Hv. unfold At, throw. rep_run. Qed.

Ltac mem_rep_run :=
  unfold ctor_rep_kept, mbind, mret, mem_bind, mem_ret;
  match goal with
  | |- context [Allocate ?n ?m] =>
      let E := fresh "E" in
      destruct (Allocate n m) as [d m1| |] eqn:E; [|done|done];
      match goal with
      | |- context [catch ?x ?h m1] => destruct (catch x h m1) as [[] m2| |]; [|done|done]
      end;
      pose proof (Allocate_Some _ _ _ _ E) as HA; apply rep_ok_iff; simpl; split; [lia|];
      intros Hd; specialize (HA Hd); lia
  end.

Lemma new_sized_rep n m : ctor_rep_kept (new_sized ops n m).
Proof. unfold new_sized. mem_rep_run. Qed.

Lemma new_sized_value_rep n x m : ctor_rep_kept (new_sized_value ops n x m).
Proof. unfold new_sized_value. mem_rep_run. Qed.

Lemma new_from_list_rep xs m : ctor_rep_kept (new_from_list ops xs m).
Proof. unfold new_from_list. mem_rep_run. Qed.

Lemma copy_construct_rep o m : rep_ok o = true -> ctor_rep_kept (copy_construct ops o m).
Proof. intros Ho. apply rep_ok_iff in Ho as [Ho _]. unfold copy_construct. mem_rep_run. Qed.




Lemma objs_rep_insert (o : gmap nat vec) a v (m : machine) :
  map_Forall (fun _ v => rep_ok v = true) o -> rep_ok v = true ->
  objs_rep (mkWorld (<[a := v]> o) m).
Proof. intros Ho Hv. unfold objs_rep; simpl. by apply map_Forall_insert_2. Qed.

Lemma empty_rep : rep_ok (mkVec 0 0 None) = true.
Proof. done. Qed.

Lemma run_method_rep {R} a (f : M R) w :
  (forall v m, rep_ok v = true -> rep_kept (f (v, m))) ->
  objs_rep w -> world_kept (run_method a f w).
Proof.
  intros Hf Hw. unfold run_method. destruct (objs w !! a) as [v|] eqn:Ea; [|done].
  pose proof (Hf v (mach w) (map_Forall_lookup_1 _ _ _ _ Hw Ea)) as H.
  unfold rep_kept in H.
  destruct (f (v, mach w)) as [? [v' m']|? [v' m']|]; simpl; [| |done];
  by apply objs_rep_insert.
Qed.

Lemma release_rep v m : rep_ok v = true ->
  rep_kept ((Clear ;; v ← this; lift (Deallocate (T:=T) (data_ v))) (v, m)).
Proof. intros Hv. unfold Clear. rep_run. Qed.

Ltac world_run :=
  repeat match goal with
  | |- context [objs ?w !! ?a] =>
      let E := fresh "E" in destruct (objs w !! a) eqn:E; cbv beta iota
  | H : objs ?w !! _ = Some ?v, Hw : objs_rep ?w |- _ =>
      let R := fresh "R" in
      pose proof (map_Forall_lookup_1 _ _ _ _ Hw H) as R; simpl in R; clear H
  end; simpl; try done.

Lemma Swap_rep a b w : objs_rep w -> world_kept (Swap (T:=T) a b w).
Proof.
  intros Hw. unfold Swap, load, store, mbind, mret, W_bind, W_ret. simpl.
  world_run. unfold objs_rep; simpl.
  repeat apply map_Forall_insert_2; done.
Qed.

Ltac objs_solve := unfold objs_rep; simpl; repeat apply map_Forall_insert_2; try done.

Lemma move_construct_rep a b w : objs_rep w -> world_kept (move_construct (T:=T) a b w).
Proof.
  intros Hw. unfold move_construct, absent, load, store, mbind, mret, W_bind, W_ret. simpl.
  world_run; objs_solve; match goal with v : vec |- _ => by destruct v end.
Qed.

Lemma copy_construct_obj_rep a b w : objs_rep w -> world_kept (copy_construct_obj ops a b w).
Proof.
  intros Hw. unfold copy_construct_obj, absent, load, store, wlift, mbind, mret, W_bind, W_ret. simpl.
  world_run.
  match goal with
  | R : rep_ok ?v = true |- context [copy_construct ops ?v ?m] =>
      pose proof (copy_construct_rep v m R) as Hc; destruct (copy_construct ops v m)
  end; simpl; try done; objs_solve.
Qed.

Lemma copy_assign_rep a b w : objs_rep w -> world_kept (copy_assign ops a b w).
Proof.
  intros Hw. unfold copy_assign. destruct (a =? b); [done|].
  unfold load, store, wlift, on_temp, mbind, mret, W_bind, W_ret. simpl.
  world_run.
  match goal with
  | R : rep_ok ?v = true |- context [copy_construct ops ?v ?m] =>
      pose proof (copy_construct_rep v m R) as Hc; destruct (copy_construct ops v m)
  end; simpl; try done.
  world_run.
  match goal with
  | |- context [destruct_vec ?s] => destruct (destruct_vec s) as [? [? ?]|? [? ?]|]
  end; simpl; try done; objs_solve.
Qed.

Lemma move_assign_rep a b w : objs_rep w -> world_kept (move_assign (T:=T) a b w).
Proof.
  intros Hw. unfold move_assign. destruct (a =? b); [done|].
  unfold mbind at 1, W_bind at 1.
  match goal with
  | |- context [run_method ?s ?f w] =>
      pose proof (run_method_rep s f w (fun v m Hv => release_rep v m Hv) Hw) as Hr;
      destruct (run_method s f w) as [? w1|? w1|]; simpl in Hr; try done
  end.
  unfold load, store, mbind, mret, W_bind, W_ret. simpl.
  world_run; objs_solve; match goal with v : vec |- _ => by destruct v end.
Qed.

End Growth.

(** ** The properties of the specification *)

Section Claims.
Context {T : Type} (ops : ElemOps T).
Local Abbreviation machine := (@machine T).
Implicit Types (m : machine).

Lemma read_stored v m xs i x :
  stored v m xs -> xs !! i = Some x -> read (data_ v) i m = MOk x m.
Proof.
  intros (Hlen & Hle & Hd) Hx. pose proof (lookup_lt_Some _ _ _ Hx) as Hi.
  destruct (data_ v) as [b|]; [|lia].
  destruct Hd as [_ Hb]. unfold read, deref. unfold mbind, mret, mem_bind, mem_ret.
  rewrite (get_slot_ok b i m _ (Live x) Hb); [done|].
  rewrite lookup_app_l by (rewrite length_map; lia).
  by rewrite list_lookup_fmap, Hx.
Qed.

Lemma At_in v m xs i x :
  stored v m xs -> xs !! i = Some x -> At (T:=T) i (v, m) = Ok x (v, m).
Proof.
  intros Hst Hx. pose proof Hst as (Hlen & _).
  pose proof (lookup_lt_Some _ _ _ Hx) as Hi.
  unfold At, this, lift. unfold mbind, M_bind. cbn [fst snd].
  destruct (Nat.leb_spec (size_ v) i); [lia|].
  cbn [fst snd]. by rewrite (read_stored v m xs i x Hst Hx).
Qed.

Lemma At_out v m i :
  size_ v <= i -> At (T:=T) i (v, m) = Exc ArrayOutOfRange (v, m).
Proof.
  intros Hi. unfold At, this, throw. unfold mbind, M_bind. cbn [fst snd].
  by destruct (Nat.leb_spec (size_ v) i); [|lia].
Qed.

(** Claim C2: on a vector stored in memory, [At(i)] throws [ArrayOutOfRange]
    exactly when [i >= size_] (so also for [i = size_], and for [i = 0] on
    an empty vector), leaving the vector and the memory as they were; for
    [i < size_] it returns element [i]. *)
Theorem At_spec v m xs i :
  stored v m xs ->
  ((exists s, At (T:=T) i (v, m) = Exc ArrayOutOfRange s) <-> size_ v <= i) /\
  (size_ v <= i -> At i (v, m) = Exc ArrayOutOfRange (v, m)) /\
  (i < size_ v -> exists x, xs !! i = Some x /\ At i (v, m) = Ok x (v, m)).
Proof.
  intros Hst. pose proof Hst as (Hlen & _).
  assert (Hin : i < size_ v -> exists x, xs !! i = Some x /\ At i (v, m) = Ok x (v, m)).
  { intros Hi. destruct (lookup_lt_is_Some_2 xs i) as [x Hx]; [lia|].
    exists x. split; [done|]. by apply (At_in v m xs). }
  split; [|split; [apply At_out|done]].
  split.
  - intros [s Hs]. destruct (Nat.le_gt_cases (size_ v) i) as [?|Hi]; [done|].
    destruct (Hin Hi) as (x & _ & Hx). congruence.
  - intros Hi. eexists. by apply At_out.
Qed.

(** Claim C10: when [Reserve(n)], [Resize(n)] or [Resize(n, value)] with
    [n > capacity_] returns normally, the new capacity is exactly [n]; and
    [Reserve(n)] with [n <= capacity_] changes nothing, vector or memory. *)
Theorem capacity_exact v m n :
  (capacity_ v < n -> forall s', Reserve ops n (v, m) = Ok tt s' -> capacity_ (fst s') = n) /\
  (capacity_ v < n -> forall s', Resize ops n (v, m) = Ok tt s' -> capacity_ (fst s') = n) /\
  (capacity_ v < n -> forall value s', Resize_value ops n value (v, m) = Ok tt s' ->
                                      capacity_ (fst s') = n) /\
  (n <= capacity_ v -> Reserve ops n (v, m) = Ok tt (v, m)).
Proof.
  assert (Hgrow : forall c e s', capacity_ v < n ->
            ((if capacity_ v <? n then grow ops v n c else e) (v, m) = Ok tt s' \/
             ((if capacity_ v <? n then grow ops v n c else e) ;; set_size n) (v, m) = Ok tt s') ->
            capacity_ (fst s') = n).
  { intros c e s' Hn. destruct (Nat.ltb_spec (capacity_ v) n) as [_|]; [|lia].
    pose proof (grow_vec ops v n c m) as G.
    unfold set_size, this, set_this, mbind, M_bind.
    destruct (grow ops v n c (v, m)) as [[] [v' m']|? [? ?]|]; try (intros [H|H]; discriminate).
    destruct G as (d & -> & _). intros [H|H]; injection H as <-; done. }
  split; [|split; [|split]].
  - intros Hn s' H. eapply Hgrow; [done|]. left. exact H.
  - intros Hn s' H. eapply Hgrow; [done|]. right. exact H.
  - intros Hn value s' H. eapply Hgrow; [done|]. right. exact H.
  - intros Hn. unfold Reserve, this, mbind, M_bind. cbn [fst snd].
    by destruct (Nat.ltb_spec (capacity_ v) n); [lia|].
Qed.

Lemma copy_loop_total sb db (zs xs ys0 : list T) Cs Cd m :
  sb <> db -> length zs = length ys0 ->
  heap m !! sb = Some (map Live zs ++ map Live xs ++ Cs) ->
  heap m !! db = Some (map Live ys0 ++ replicate (length xs) Raw ++ Cd) ->
  uninit_loop (fun i => copy_construct_at ops (Some db) (0 + i) (Some sb) (0 + i))
              (Some db) 0 (length ys0) (length xs) m <> MUB.
Proof.
  intros Hne. revert zs ys0 m. induction xs as [|x xs IH]; intros zs ys0 m Hlen Hs Hd; simpl.
  - unfold mret, mem_ret. discriminate.
  - unfold mbind, mem_bind, catch. simpl in Hs, Hd.
    assert (E1 : length (map Live zs) = length ys0) by (rewrite length_map; lia).
    assert (E2 : length (map Live ys0) = length ys0) by (by rewrite length_map).
    rewrite (copy_construct_at_ok ops _ _ _ _ _ _ _ _ _ _ E1 E2 Hs Hd).
    destruct (copy_ctor ops (ctor_count m) x) as [y|] eqn:Hcp.
    + rewrite map_Live_snoc0.
      replace (S (length ys0)) with (length (ys0 ++ [y])) by (rewrite length_app; simpl; lia).
      apply IH with (zs := zs ++ [x]); simpl.
      * rewrite !length_app; simpl; lia.
      * rewrite lookup_insert_ne; [|done]. rewrite map_app, <- !app_assoc. done.
      * by rewrite lookup_insert_eq.
    + rewrite (destroy_ok db [] ys0 (Raw :: replicate (length xs) Raw ++ Cd)); [|simpl; done].
      unfold raise. discriminate.
Qed.

Lemma stored_mono v m m' (xs : list T) :
  stored v m xs -> (forall b l, heap m !! b = Some l -> heap m' !! b = Some l) ->
  stored v m' xs.
Proof.
  intros (Hlen & Hle & Hd) Hmono. split; [done|]. split; [done|].
  destruct (data_ v); [|done]. destruct Hd as [Hc Hb]. split; [done|]. by apply Hmono.
Qed.

Lemma stored_release v m (xs : list T) p c :
  stored v m xs -> (forall b, p = Some b -> data_ v <> Some b) ->
  stored v (mkMachine (release p (heap m)) c) xs.
Proof.
  intros (Hlen & Hle & Hd) Hp. split; [done|]. split; [done|].
  destruct (data_ v) as [bv|] eqn:Ev; [|done]. destruct Hd as [Hc Hb]. split; [done|].
  simpl. destruct p as [bp|]; simpl; [|done].
  rewrite lookup_delete_ne; [done|]. intros Heq. subst bp. by apply (Hp bv).
Qed.

(** [~Vector()] (and the first half of [operator=(Vector&&)]) on a vector
    stored in memory: its elements are destroyed and its block released. *)
Lemma destruct_stored d m (ds : list T) :
  stored d m ds ->
  exists d', destruct_vec (d, m) = Ok tt (d', mkMachine (release (data_ d) (heap m)) (ctor_count m)).
Proof.
  intros (Hlen & Hle & Hd).
  unfold destruct_vec, Clear, this, set_size, set_this, lift.
  unfold mbind, mret, M_bind, M_ret, mem_bind, mem_ret. cbn [fst snd].
  destruct (data_ d) as [b|] eqn:Ed.
  - destruct Hd as [_ Hb].
    replace (size_ d) with (length ds) by done.
    rewrite (destroy_ok b [] ds (replicate (capacity_ d - size_ d) Raw)) by done.
    cbn [fst snd]. simpl. rewrite Ed.
    rewrite (Deallocate_ok b _ _ (lookup_insert_eq _ _ _)). simpl. eexists. by rewrite delete_insert_eq.
  - simpl. rewrite Ed. simpl. eexists. by rewrite machine_eta.
Qed.

Lemma std_equal_lists p1 p2 (xs ys : list T) o1 o2 m :
  length xs = length ys ->
  (forall i x, xs !! i = Some x -> read p1 (o1 + i) m = MOk x m) ->
  (forall i y, ys !! i = Some y -> read p2 (o2 + i) m = MOk y m) ->
  std_equal ops p1 o1 p2 o2 (length xs) m =
    MOk (forallb (fun p => elem_eq ops p.1 p.2) (zip xs ys)) m.
Proof.
  revert ys o1 o2. induction xs as [|x xs IH]; intros [|y ys] o1 o2 Hlen H1 H2;
    cbn [length] in Hlen; try lia; [done|].
  pose proof (H1 0 x eq_refl) as E1. pose proof (H2 0 y eq_refl) as E2.
  rewrite Nat.add_0_r in E1, E2.
  cbn [length std_equal]. unfold mbind, mem_bind, mret, mem_ret. rewrite E1, E2.
  cbn [zip forallb fst snd]. destruct (elem_eq ops x y); [|done]. simpl.
  apply IH; [lia| |].
  - intros i x' Hi. replace (S o1 + i) with (o1 + S i) by lia. by apply H1.
  - intros i y' Hi. replace (S o2 + i) with (o2 + S i) by lia. by apply H2.
Qed.

Lemma lex_compare_lists p1 p2 (xs ys : list T) o1 o2 m :
  (forall i x, xs !! i = Some x -> read p1 (o1 + i) m = MOk x m) ->
  (forall i y, ys !! i = Some y -> read p2 (o2 + i) m = MOk y m) ->
  lex_compare ops p1 o1 (length xs) p2 o2 (length ys) m =
    MOk (spec_lt (elem_lt ops) xs ys) m.
Proof.
  revert ys o1 o2. induction xs as [|x xs IH]; intros [|y ys] o1 o2 H1 H2; try done.
  pose proof (H1 0 x eq_refl) as E1. pose proof (H2 0 y eq_refl) as E2.
  rewrite Nat.add_0_r in E1, E2.
  cbn [length lex_compare spec_lt]. unfold mbind, mem_bind, mret, mem_ret. rewrite E1, E2.
  destruct (elem_lt ops x y); [done|]. destruct (elem_lt ops y x); [done|].
  apply IH.
  - intros i x' Hi. replace (S o1 + i) with (o1 + S i) by lia. by apply H1.
  - intros i y' Hi. replace (S o2 + i) with (o2 + S i) by lia. by apply H2.
Qed.

Lemma op_eq_stored a b m xs ys :
  stored a m xs -> stored b m ys ->
  op_eq ops a b m = MOk (spec_eq (elem_eq ops) xs ys) m.
Proof.
  intros Ha Hb. pose proof Ha as (Hla & _). pose proof Hb as (Hlb & _).
  unfold op_eq, spec_eq. rewrite <- Hla, <- Hlb.
  destruct (Nat.eqb_spec (length xs) (length ys)) as [Heq|]; [|done].
  apply std_equal_lists; [done| |]; intros i x Hi; by apply (read_stored _ _ _ _ _ Ha) || by apply (read_stored _ _ _ _ _ Hb).
Qed.

Lemma op_lt_stored a b m xs ys :
  stored a m xs -> stored b m ys ->
  op_lt ops a b m = MOk (spec_lt (elem_lt ops) xs ys) m.
Proof.
  intros Ha Hb. pose proof Ha as (Hla & _). pose proof Hb as (Hlb & _).
  unfold op_lt. rewrite <- Hla, <- Hlb.
  apply lex_compare_lists; intros i x Hi.
  - by apply (read_stored _ _ _ _ _ Ha).
  - by apply (read_stored _ _ _ _ _ Hb).
Qed.

(** Claim C8: on vectors stored in memory, [operator==] is "same length and
    element-wise [elem_eq]", [operator<] is the lexicographic order from
    [elem_lt], and [!=], [>], [<=], [>=] are [not ==], [b < a], [not (b < a)]
    and [not (a < b)].  For integers, [[1;2] < [1;2;3] < [1;3]] and
    [[] < [1]]. *)
Theorem compare_spec :
  (forall a b m xs ys,
     stored a m xs -> stored b m ys ->
     op_eq ops a b m = MOk (spec_eq (elem_eq ops) xs ys) m /\
     op_lt ops a b m = MOk (spec_lt (elem_lt ops) xs ys) m /\
     op_ne ops a b m = MOk (negb (spec_eq (elem_eq ops) xs ys)) m /\
     op_gt ops a b m = MOk (spec_lt (elem_lt ops) ys xs) m /\
     op_le ops a b m = MOk (negb (spec_lt (elem_lt ops) ys xs)) m /\
     op_ge ops a b m = MOk (negb (spec_lt (elem_lt ops) xs ys)) m) /\
  (let m := mkMachine (<[0 := [Live 1%Z; Live 2%Z]]> (<[1 := [Live 1%Z; Live 2%Z; Live 3%Z]]>
              (<[2 := [Live 1%Z; Live 3%Z]]> (<[3 := [Live 1%Z]]> ∅)))) 0 in
   op_lt (counting_ops 0) (mkVec 2 2 (Some 0)) (mkVec 3 3 (Some 1)) m = MOk true m /\
   op_lt (counting_ops 0) (mkVec 3 3 (Some 1)) (mkVec 2 2 (Some 2)) m = MOk true m /\
   op_lt (counting_ops 0) empty_vec (mkVec 1 1 (Some 3)) m = MOk true m).
Proof.
  split; [|vm_compute; repeat split].
  intros a b m xs ys Ha Hb.
  pose proof (op_eq_stored a b m xs ys Ha Hb) as Heq.
  pose proof (op_lt_stored a b m xs ys Ha Hb) as Hlt.
  pose proof (op_lt_stored b a m ys xs Hb Ha) as Hgt.
  unfold op_ne, op_gt, op_le, op_ge. unfold mbind, mem_bind, mret, mem_ret.
  rewrite Heq, Hlt, Hgt. by repeat split.
Qed.

(** Claim C5: every operation keeps the representation invariant
    [size_ <= capacity_], with a block only when [capacity_ > 0], whether
    it returns or throws: the member functions of one vector, the
    constructors, and the operations on objects (copy and move
    construction and assignment, [Swap]). *)
Theorem rep_ok_preserved :
  (forall v m, rep_ok v = true ->
     (forall n, rep_kept (Resize ops n (v, m))) /\
     (forall n x, rep_kept (Resize_value ops n x (v, m))) /\
     (forall n, rep_kept (Reserve ops n (v, m))) /\
     rep_kept (ShrinkToFit ops (v, m)) /\
     rep_kept (Clear (v, m)) /\
     (forall x, rep_kept (PushBack ops x (v, m))) /\
     (forall x, rep_kept (PushBack_move ops x (v, m))) /\
     (forall make, rep_kept (EmplaceBack ops make (v, m))) /\
     rep_kept (PopBack (v, m)) /\
     (forall i, rep_kept (At i (v, m)))) /\
  rep_ok empty_vec = true /\
  (forall n m, ctor_rep_kept (new_sized ops n m)) /\
  (forall n x m, ctor_rep_kept (new_sized_value ops n x m)) /\
  (forall xs m, ctor_rep_kept (new_from_list ops xs m)) /\
  (forall o m, rep_ok o = true -> ctor_rep_kept (copy_construct ops o m)) /\
  (forall w a b, objs_rep w ->
     world_kept (Swap a b w) /\ world_kept (move_construct a b w) /\
     world_kept (copy_construct_obj ops a b w) /\ world_kept (copy_assign ops a b w) /\
     world_kept (move_assign a b w)).
Proof.
  split; [|split; [done|split; [|split; [|split; [|split]]]]].
  - intros v m Hv. repeat split.
    + intros n. apply (Resize_with_rep ops _ n v m Hv).
    + intros n x. apply (Resize_with_rep ops _ n v m Hv).
    + intros n. apply (Reserve_rep ops n v m Hv).
    + apply (ShrinkToFit_rep ops v m Hv).
    + apply (Clear_rep v m Hv).
    + intros x. apply (grow_push_rep ops _ v m Hv).
    + intros x. apply (grow_push_rep ops _ v m Hv).
    + intros make. apply (grow_push_rep ops _ v m Hv).
    + apply (PopBack_rep v m Hv).
    + intros i. apply (At_rep i v m Hv).
  - intros n m. apply new_sized_rep.
  - intros n x m. apply new_sized_value_rep.
  - intros xs m. apply new_from_list_rep.
  - intros o m Ho. by apply copy_construct_rep.
  - intros w a b Hw. split; [by apply Swap_rep|]. split; [by apply move_construct_rep|].
    split; [by apply copy_construct_obj_rep|]. split; [by apply copy_assign_rep|].
    by apply move_assign_rep.
Qed.

Hypothesis move_faithful : forall k x y x', move_ctor ops k x = Some (y, x') -> y = x.
Hypothesis copy_faithful : forall k x y, copy_ctor ops k x = Some y -> y = x.

Lemma fresh_not_stored v m xs : stored v m xs -> data_ v <> Some (fresh (dom (heap m))).
Proof.
  intros (_ & _ & Hd) Heq. rewrite Heq in Hd. destruct Hd as [_ Hb].
  by rewrite fresh_block in Hb.
Qed.

Lemma copied_eq (xs ys : list T) :
  Forall2 (fun x y => exists k, copy_ctor ops k x = Some y) xs ys -> ys = xs.
Proof.
  induction 1 as [|x y xs ys [k Hk] _ IH]; [done|].
  apply copy_faithful in Hk. by subst.
Qed.

(** [Vector(const Vector& other)] on a vector stored in memory: either a
    copy in a new block, with every old block kept, or an exception with
    the heap as it was; never undefined behaviour. *)
Lemma copy_construct_stored s m ss :
  stored s m ss ->
  match copy_construct ops s m with
  | MOk t m' => size_ t = size_ s /\ capacity_ t = capacity_ s /\ stored t m' ss /\
      (forall b, data_ t = Some b -> heap m !! b = None) /\
      (forall b l, heap m !! b = Some l -> heap m' !! b = Some l)
  | MExc _ m' => heap m' = heap m
  | MUB => False
  end.
Proof.
  intros Hst. pose proof Hst as (Hlen & Hle & Hd).
  unfold copy_construct. unfold mbind, mret, mem_bind, mem_ret.
  destruct (Nat.eq_dec (capacity_ s) 0) as [Hc0|Hc0].
  - assert (Hs0 : size_ s = 0) by lia.
    unfold Allocate. rewrite Hc0, Hs0. simpl.
    destruct ss; [|simpl in Hlen; lia].
    split; [done|]. split; [done|]. split; [split; [done|split; done]|].
    split; [done|]. auto.
  - destruct (data_ s) as [bs|] eqn:Es; [|lia]. destruct Hd as [_ Hbs].
    rewrite (Allocate_ok (capacity_ s) m Hc0).
    pose proof (fresh_block m) as Hfr.
    set (nb := fresh (dom (heap m))) in *.
    assert (Hne : bs <> nb) by (intros ->; congruence).
    unfold catch, uninitialized_copy. rewrite <- Hlen.
    set (m1 := mkMachine (<[nb := replicate (capacity_ s) Raw]> (heap m)) (ctor_count m)).
    assert (Hs1 : heap m1 !! bs = Some (map Live [] ++ map Live ss ++
                                        replicate (capacity_ s - size_ s) Raw))
      by (simpl; by rewrite lookup_insert_ne).
    assert (Hd1 : heap m1 !! nb = Some (map Live [] ++ replicate (length ss) Raw ++
                                        replicate (capacity_ s - size_ s) Raw)).
    { simpl. rewrite lookup_insert_eq, <- replicate_add. do 2 f_equal. lia. }
    pose proof (copy_loop_total bs nb [] ss [] _ _ m1 Hne eq_refl Hs1 Hd1) as Htot.
    pose proof (copy_loop_ok ops bs nb [] ss [] (replicate (capacity_ s - size_ s) Raw) (replicate (capacity_ s - size_ s) Raw) m1) as Hok.
    pose proof (copy_loop_exc ops bs nb [] ss [] (replicate (capacity_ s - size_ s) Raw) (replicate (capacity_ s - size_ s) Raw) m1) as Hexc.
    simpl length in Htot, Hok, Hexc.
    destruct (uninit_loop _ (Some nb) 0 0 (length ss) m1) as [[] m2|e m2|] eqn:Hrun;
      [| |done].
    + destruct (Hok m2 Hne eq_refl Hs1 Hd1 eq_refl) as (ys & Hall & Hheap).
      apply copied_eq in Hall as ->. simpl.
      split; [done|]. split; [done|]. split.
      * unfold stored; simpl. split; [done|]. split; [lia|]. split; [lia|]. rewrite Hheap. simpl.
        by rewrite lookup_insert_eq, Hlen.
      * split; [by intros b [= <-]|].
        intros b l Hb. rewrite Hheap. simpl.
        rewrite lookup_insert_ne; [|intros ->; congruence].
        rewrite lookup_insert_ne; [done|intros ->; congruence].
    + destruct (Hexc e m2 Hne eq_refl Hs1 Hd1 eq_refl) as (l' & Hheap).
      unfold Deallocate. rewrite Hheap, lookup_insert_eq. simpl.
      rewrite delete_insert_eq. simpl. rewrite delete_insert_eq.
      by apply delete_id.
Qed.

(** Claim C9: when [ShrinkToFit()] returns normally on a vector stored in
    memory, the size and the elements are kept and the capacity becomes the
    size: for size 0 the block is released and [data_] is [nullptr]; for
    [0 < size_ < capacity_] the elements are moved into a new block of
    exactly [size_] slots; for [size_ = capacity_] nothing changes. *)
Theorem ShrinkToFit_spec v m xs s' :
  stored v m xs -> ShrinkToFit ops (v, m) = Ok tt s' ->
  size_ (fst s') = size_ v /\ capacity_ (fst s') = size_ v /\
  contents (fst s') (snd s') = Some xs /\ stored (fst s') (snd s') xs /\
  (size_ v = 0 -> data_ (fst s') = None /\ heap (snd s') = release (data_ v) (heap m)) /\
  (0 < size_ v < capacity_ v ->
     data_ (fst s') = Some (fresh (dom (heap m))) /\ data_ (fst s') <> data_ v /\
     heap (snd s') = <[fresh (dom (heap m)) := map Live xs]> (release (data_ v) (heap m))) /\
  (size_ v = capacity_ v -> s' = (v, m)).
Proof.
  intros Hst Hrun.
  destruct (ShrinkToFit_ok ops move_faithful v m xs s' Hst Hrun)
    as (Hst' & Hsz & Hcap & H0 & H1 & H2).
  split; [done|]. split; [done|]. split; [by apply stored_contents|]. split; [done|].
  split; [done|]. split; [|done].
  intros Hlt. destruct (H1 Hlt) as [Hd Hh]. split; [done|]. split; [|done].
  rewrite Hd. intros Heq. by apply (fresh_not_stored v m xs Hst).
Qed.

Lemma push_capacity c : (if c =? 0 then 1 else c * 2) = Nat.max 1 (2 * c).
Proof. destruct c; simpl; lia. Qed.

Lemma PushBack_ok v m xs x s' :
  stored v m xs ->
  PushBack ops x (v, m) = Ok tt s' \/ PushBack_move ops x (v, m) = Ok tt s' ->
  stored (fst s') (snd s') (xs ++ [x]) /\ size_ (fst s') = S (size_ v) /\
  capacity_ (fst s') = (if size_ v =? capacity_ v then Nat.max 1 (2 * capacity_ v)
                        else capacity_ v).
Proof.
  intros Hst [H|H]; unfold PushBack, PushBack_move in H;
    apply (grow_push_ok ops move_faithful v m xs) in H as (y & k & Hy & Hst' & Hsz & Hcap); auto.
  - apply copy_faithful in Hy as ->. rewrite <- push_capacity. auto.
  - destruct (move_ctor ops k x) as [[y' x']|] eqn:E; [|discriminate].
    injection Hy as <-. apply move_faithful in E as ->. rewrite <- push_capacity. auto.
Qed.

Lemma PushBack_all values v m xs s' :
  stored v m xs ->
  run_all (map (PushBack ops) values) (v, m) = Ok tt s' ->
  stored (fst s') (snd s') (xs ++ values) /\ size_ (fst s') = size_ v + length values.
Proof.
  revert v m xs. induction values as [|x values IH]; intros v m xs Hst Hrun; simpl in Hrun.
  - injection Hrun as <-. rewrite app_nil_r. simpl. split; [done|lia].
  - unfold mbind, M_bind in Hrun.
    destruct (PushBack ops x (v, m)) as [[] [v1 m1]|? ?|] eqn:E; try discriminate.
    destruct (PushBack_ok v m xs x (v1, m1) Hst (or_introl E)) as (Hst1 & Hsz1 & _).
    destruct (IH v1 m1 (xs ++ [x]) Hst1 Hrun) as [Hst' Hsz'].
    rewrite <- app_assoc in Hst'. split; [done|]. simpl in Hsz1. simpl. lia.
Qed.

(** X22: when [PushBack(value)] (by copy or by move), [value] referring
    to an object outside the vector's storage, returns normally on a vector
    of size [n] holding [xs], the vector holds [xs ++ [value]] with size
    [n + 1], and its capacity is [max(1, 2 * capacity_)] if it was full,
    unchanged otherwise.  Hence [N] successful [PushBack]s of such values
    from the empty vector give size [N], and element [i] (read by [At(i)])
    is the [i]-th value pushed.  Copies and moves are assumed to produce
    the value they are given. *)
Theorem PushBack_outside_spec :
  (forall v m xs x s',
     stored v m xs ->
     PushBack_ref ops (RVal x) (v, m) = Ok tt s' \/ PushBack_move_ref ops (RVal x) (v, m) = Ok tt s' ->
     size_ (fst s') = S (size_ v) /\ stored (fst s') (snd s') (xs ++ [x]) /\
     capacity_ (fst s') = (if size_ v =? capacity_ v then Nat.max 1 (2 * capacity_ v)
                           else capacity_ v)) /\
  (forall values s',
     run_all (map (fun x => PushBack_ref ops (RVal x)) values) (empty_vec, machine0) = Ok tt s' ->
     size_ (fst s') = length values /\ contents (fst s') (snd s') = Some values /\
     forall i x, values !! i = Some x -> At i s' = Ok x s').
Proof.
  split.
  - intros v m xs x s' Hst H. destruct (PushBack_ok v m xs x s' Hst H) as (? & ? & ?). auto.
  - intros values [v' m'] Hrun.
    assert (Hst0 : stored (T:=T) empty_vec machine0 []) by (split; [done|split; done]).
    destruct (PushBack_all values empty_vec machine0 [] (v', m') Hst0 Hrun) as [Hst Hsz].
    simpl in Hst, Hsz. split; [done|]. split; [by apply stored_contents|].
    intros i x Hx. by apply (At_in v' m' values).
Qed.

Lemma Forall_copies value (ys : list T) :
  Forall (fun y => exists k, copy_ctor ops k value = Some y) ys ->
  ys = replicate (length ys) value.
Proof.
  induction 1 as [|y ys [k Hk] _ IH]; [done|].
  apply copy_faithful in Hk as ->. simpl. by f_equal.
Qed.

(** X23: when [Resize(n)] or [Resize(n, value)], [value] referring to an
    object outside the vector's storage, returns normally on a vector
    stored in memory, the size is [n] and the elements are the first [n]
    old ones followed by [n - size_] new default-constructed objects
    (respectively copies of [value]); if [n > capacity_] the capacity
    becomes [n], otherwise the same block is updated in place: its first
    [n] slots hold these elements, the rest is raw storage, and no other
    block changes. *)
Theorem Resize_outside_spec v m xs n :
  stored v m xs ->
  (forall s', Resize ops n (v, m) = Ok tt s' ->
     size_ (fst s') = n /\
     exists ys, length ys = n - size_ v /\
       Forall (fun y => exists k, default_ctor ops k = Some y) ys /\
       stored (fst s') (snd s') (take n xs ++ ys) /\
       (capacity_ v < n -> capacity_ (fst s') = n) /\
       (n <= capacity_ v ->
          fst s' = mkVec n (capacity_ v) (data_ v) /\
          heap (snd s') = match data_ v with
                          | Some b => <[b := map Live (take n xs ++ ys) ++
                                               replicate (capacity_ v - n) Raw]> (heap m)
                          | None => heap m
                          end)) /\
  (forall value s', Resize_value_ref ops n (RVal value) (v, m) = Ok tt s' ->
     let ys := replicate (n - size_ v) value in
     size_ (fst s') = n /\
     stored (fst s') (snd s') (take n xs ++ ys) /\
     (capacity_ v < n -> capacity_ (fst s') = n) /\
     (n <= capacity_ v ->
        fst s' = mkVec n (capacity_ v) (data_ v) /\
        heap (snd s') = match data_ v with
                        | Some b => <[b := map Live (take n xs ++ ys) ++
                                             replicate (capacity_ v - n) Raw]> (heap m)
                        | None => heap m
                        end)).
Proof.
  intros Hst. split.
  - intros s' Hrun. unfold Resize in Hrun.
    apply (Resize_with_ok ops move_faithful _ (fun y => exists k, default_ctor ops k = Some y)
             v m xs) in Hrun as (ys & Hlen & Hys & Hsz & Hrest); [| | |done].
    + split; [done|]. exists ys. auto.
    + intros b A k C m1 m2 Hb Hf. by apply (default_fill_ok ops b A k C m1 m2).
    + intros p off m1 m2 Hf. by injection Hf.
  - intros value s' Hrun. change (Resize_value ops n value (v, m) = Ok tt s') in Hrun.
    unfold Resize_value in Hrun.
    apply (Resize_with_ok ops move_faithful _ (fun y => exists k, copy_ctor ops k value = Some y)
             v m xs) in Hrun as (ys & Hlen & Hys & Hsz & Hrest); [| | |done].
    + apply Forall_copies in Hys. rewrite Hlen in Hys. subst ys. simpl. auto.
    + intros b A k C m1 m2 Hb Hf. by apply (value_fill_ok ops b A k C value m1 m2).
    + intros p off m1 m2 Hf. by injection Hf.
Qed.

(** Claim C6: move construction from the object at [b] returns normally,
    the new object at [a] has the fields of the source and the source is
    the empty vector, memory untouched; move assignment between distinct
    objects that own distinct blocks returns normally, destroys and releases
    the target's old storage, gives the target the source's fields (and so
    its elements) and leaves the source empty; self-move-assignment is a
    no-op. *)
Theorem move_spec w a b s :
  objs w !! b = Some s ->
  (objs w !! a = None ->
     move_construct (T:=T) a b w =
       WOk tt (mkWorld (<[b := empty_vec]> (<[a := s]> (objs w))) (mach w))) /\
  (forall d ds, a <> b -> objs w !! a = Some d -> stored d (mach w) ds ->
     (forall bd, data_ d = Some bd -> data_ s <> Some bd) ->
     move_assign (T:=T) a b w =
       WOk tt (mkWorld (<[b := empty_vec]> (<[a := s]> (objs w)))
                       (mkMachine (release (data_ d) (heap (mach w))) (ctor_count (mach w)))) /\
     forall ss, stored s (mach w) ss ->
       stored s (mkMachine (release (data_ d) (heap (mach w))) (ctor_count (mach w))) ss) /\
  move_assign (T:=T) a a w = WOk tt w.
Proof.
  intros Hb. split; [|split].
  - intros Ha. unfold move_construct, absent, load, store, mbind, W_bind. simpl.
    rewrite Ha, Hb. by destruct s.
  - intros d ds Hne Ha Hd Hdisj. split.
    + unfold move_assign. rewrite (proj2 (Nat.eqb_neq a b) Hne).
      change (Clear ;; v ← this; lift (Deallocate (data_ v))) with (destruct_vec (T:=T)).
      unfold run_method, load, store, mbind, W_bind. rewrite Ha.
      destruct (destruct_stored d (mach w) ds Hd) as [d' Hdv].
      rewrite Hdv. simpl.
      rewrite lookup_insert_ne by done. rewrite Hb. simpl. rewrite insert_insert_eq. by destruct s.
    + intros ss Hss. apply stored_release; [done|]. intros bd Hbd. by apply Hdisj.
  - unfold move_assign. by rewrite Nat.eqb_refl.
Qed.

(** Claim C7: copy assignment to itself is a no-op; between distinct objects
    stored in memory that own distinct blocks, it either returns normally
    with the target a copy of the source (same size, capacity and elements,
    in a block that did not exist before) and the source unchanged, or
    throws with every object and the whole heap as before; it is never
    undefined behaviour. *)
Theorem copy_assign_spec w a b :
  copy_assign ops a a w = WOk tt w /\
  (forall d s ds ss, a <> b -> objs w !! a = Some d -> objs w !! b = Some s ->
     stored d (mach w) ds -> stored s (mach w) ss ->
     (forall bd, data_ d = Some bd -> data_ s <> Some bd) ->
     match copy_assign ops a b w with
     | WOk _ w' =>
         exists t, objs w' = <[a := t]> (objs w) /\
           size_ t = size_ s /\ capacity_ t = capacity_ s /\
           stored t (mach w') ss /\ stored s (mach w') ss /\
           (forall bt, data_ t = Some bt -> heap (mach w) !! bt = None)
     | WExc _ w' => objs w' = objs w /\ heap (mach w') = heap (mach w)
     | WUB => False
     end).
Proof.
  split; [unfold copy_assign; by rewrite Nat.eqb_refl|].
  intros d s ds ss Hne Ha Hb Hd Hs Hdisj.
  unfold copy_assign. rewrite (proj2 (Nat.eqb_neq a b) Hne).
  unfold load, store, wlift, on_temp, mbind, W_bind. rewrite Hb.
  pose proof (copy_construct_stored s (mach w) ss Hs) as Hc.
  destruct (copy_construct ops s (mach w)) as [t m'|e m'|]; [|done|done].
  destruct Hc as (Hsz & Hcap & Ht & Hfresh & Hkeep). simpl. rewrite Ha.
  destruct (destruct_stored d m' ds (stored_mono d (mach w) m' ds Hd Hkeep)) as [d' Hdv].
  cbn [mach objs]. rewrite Hdv. simpl. exists t.
  split; [done|]. split; [done|]. split; [done|]. split; [|split; [|done]].
  - apply stored_release; [done|]. intros bd Hbd Htd.
    apply Hfresh in Htd. destruct Hd as (_ & _ & Hdd). rewrite Hbd in Hdd.
    destruct Hdd as [_ Hdd]. congruence.
  - apply stored_release; [|done]. by apply (stored_mono s (mach w)).
Qed.

End Claims.

(** Claim C1, which the code misses.  The growth step moves the old elements
    out with [std::uninitialized_move] and the [catch] block does not move
    them back.  With [counting_ops 2] (a move that leaves [0] in its source,
    a copy that throws on the third construction), pushing [2] onto [[1]]
    throws with size and capacity as before but the element now [0].  With
    [throwing_move_ops 4], the third push moves the first element, then the
    move of the second one throws: [std::uninitialized_move] destroys the
    first new object, and the [catch] block destroys it again, which is
    undefined behaviour. *)
Theorem growth_not_strongly_safe :
  (match PushBack (counting_ops 2) 1%Z (empty_vec, machine0) with
   | Ok _ (v, m) =>
       v = mkVec 1 1 (Some 0) /\ contents v m = Some [1%Z] /\
       match PushBack (counting_ops 2) 2%Z (v, m) with
       | Exc ElementFailure (v', m') => v' = v /\ contents v' m' = Some [0%Z]
       | _ => False
       end
   | _ => False
   end) /\
  run_all [PushBack (throwing_move_ops 4) 1%Z; PushBack (throwing_move_ops 4) 2%Z;
           PushBack (throwing_move_ops 4) 3%Z] (empty_vec, machine0) = UB.
Proof. vm_compute. repeat split. Qed.

(** Claim C3, which the code misses when the argument is an element of the
    vector.  [v] holds [[5]] with size and capacity [1], and [T] is
    [counting_ops 100] (a move leaves [0] in its source).  [v.PushBack(v[0])]
    grows: [std::uninitialized_move] moves [v[0]] into the new block first,
    and only then does [T(value)] copy the object [value] refers to, which
    is now the moved-from [0].  The vector ends as [[5; 0]], not [[5; 5]];
    [v.PushBack(std::move(v[0]))] ends the same way.  Pushing a [5] held
    elsewhere gives [[5; 5]]. *)
Theorem push_back_own_element :
  let v := mkVec 1 1 (Some 0) in
  let m := mkMachine {[0 := [Live 5%Z]]} 0 in
  contents v m = Some [5%Z] /\
  match PushBack_ref (counting_ops 100) (RSlot 0 0) (v, m) with
  | Ok _ (v', m') => contents v' m' = Some [5%Z; 0%Z]
  | _ => False
  end /\
  match PushBack_move_ref (counting_ops 100) (RSlot 0 0) (v, m) with
  | Ok _ (v', m') => contents v' m' = Some [5%Z; 0%Z]
  | _ => False
  end /\
  match PushBack_ref (counting_ops 100) (RVal 5%Z) (v, m) with
  | Ok _ (v', m') => contents v' m' = Some [5%Z; 5%Z]
  | _ => False
  end.
Proof. vm_compute. repeat split. Qed.

(** Claim C4, which the code misses for [Resize(n, value)] when [value] is
    an element of the vector.  On the same [v], [v.Resize(3, v[0])] grows:
    [std::uninitialized_move] moves [v[0]] out first, and
    [std::uninitialized_fill_n] then copies the moved-from [0] into the two
    new slots.  The vector ends as [[5; 0; 0]], not [[5; 5; 5]], which is
    what [Resize(3, value)] gives for a [5] held elsewhere. *)
Theorem resize_fill_own_element :
  let v := mkVec 1 1 (Some 0) in
  let m := mkMachine {[0 := [Live 5%Z]]} 0 in
  contents v m = Some [5%Z] /\
  match Resize_value_ref (counting_ops 100) 3 (RSlot 0 0) (v, m) with
  | Ok _ (v', m') => size_ v' = 3 /\ contents v' m' = Some [5%Z; 0%Z; 0%Z]
  | _ => False
  end /\
  match Resize_value_ref (counting_ops 100) 3 (RVal 5%Z) (v, m) with
  | Ok _ (v', m') => contents v' m' = Some [5%Z; 5%Z; 5%Z]
  | _ => False
  end.
Proof. vm_compute. repeat split. Qed.


(** ** Further properties: what a throwing member leaves in memory, the
    constructors, the members that never throw, and how members compose *)

Section Footprint.
Context {T : Type} (ops : ElemOps T).
Local Abbreviation machine := (@machine T).
Implicit Types (m : machine).

Ltac unfold_monads :=
  unfold mbind, mret, mem_bind, mem_ret, M_bind, M_ret, W_bind, W_ret in *.

Lemma kd_ret {A} (a : A) : keeps_dom (T:=T) (mret a).
Proof. intros m. done. Qed.

Lemma kd_bind {A B} (x : mem (T:=T) A) (f : A -> mem B) :
  keeps_dom x -> (forall a, keeps_dom (f a)) -> keeps_dom (x ≫= f).
Proof.
  intros Hx Hf m. unfold_monads. specialize (Hx m).
  destruct (x m) as [a m1|e m1|]; [|done|done].
  specialize (Hf a m1). destruct (f a m1); congruence.
Qed.

Lemma kd_raise {A} e : keeps_dom (T:=T) (A:=A) (raise e).
Proof. intros m. done. Qed.

Lemma kd_undefined {A} : keeps_dom (T:=T) (A:=A) undefined.
Proof. intros m. done. Qed.

Lemma kd_catch {A} (x : mem (T:=T) A) h :
  keeps_dom x -> (forall e, keeps_dom (h e)) -> keeps_dom (catch x h).
Proof.
  intros Hx Hh m. unfold catch. specialize (Hx m).
  destruct (x m) as [a m1|e m1|]; [done| |done].
  specialize (Hh e m1). destruct (h e m1); congruence.
Qed.

Lemma kd_deref p : keeps_dom (T:=T) (deref p).
Proof. intros m. by destruct p. Qed.

Lemma kd_get_slot b i : keeps_dom (T:=T) (get_slot b i).
Proof.
  intros m. unfold get_slot, load_block. unfold_monads.
  destruct (heap m !! b); [|done]. by destruct (_ !! i).
Qed.

Lemma kd_set_slot b i s : keeps_dom (T:=T) (set_slot b i s).
Proof.
  intros m. unfold set_slot, load_block, put_block. unfold_monads.
  destruct (heap m !! b) eqn:E; [|done].
  destruct (i <? length l); [|done]. simpl. apply dom_insert_lookup_L. by rewrite E.
Qed.

Lemma kd_tick : keeps_dom (T:=T) tick.
Proof. intros m. done. Qed.

Lemma kd_read p i : keeps_dom (read (T:=T) p i).
Proof.
  apply kd_bind; [apply kd_deref|intros b]. apply kd_bind; [apply kd_get_slot|intros []].
  - apply kd_undefined.
  - apply kd_ret.
Qed.

Lemma kd_construct_at p i mk : keeps_dom (T:=T) (construct_at p i mk).
Proof.
  apply kd_bind; [apply kd_deref|intros b]. apply kd_bind; [apply kd_tick|intros k].
  destruct (mk k); [apply kd_set_slot|apply kd_raise].
Qed.

Lemma kd_move_construct_at d di s si : keeps_dom (move_construct_at ops d di s si).
Proof.
  apply kd_bind; [apply kd_deref|intros sb]. apply kd_bind; [apply kd_deref|intros db].
  apply kd_bind; [apply kd_get_slot|intros [|x]]; [apply kd_undefined|].
  apply kd_bind; [apply kd_tick|intros k].
  destruct (move_ctor ops k x) as [[y x']|]; [|apply kd_raise].
  apply kd_bind; [apply kd_set_slot|intros _]. apply kd_set_slot.
Qed.

Lemma kd_copy_construct_at d di s si : keeps_dom (copy_construct_at ops d di s si).
Proof.
  apply kd_bind; [apply kd_deref|intros sb]. apply kd_bind; [apply kd_deref|intros db].
  apply kd_bind; [apply kd_get_slot|intros [|x]]; [apply kd_undefined|].
  apply kd_bind; [apply kd_tick|intros k].
  destruct (copy_ctor ops k x); [apply kd_set_slot|apply kd_raise].
Qed.

Lemma kd_destroy_at p i : keeps_dom (T:=T) (destroy_at p i).
Proof.
  apply kd_bind; [apply kd_deref|intros b]. apply kd_bind; [apply kd_get_slot|intros []].
  - apply kd_undefined.
  - apply kd_set_slot.
Qed.

Lemma kd_destroy p off n : keeps_dom (T:=T) (destroy p off n).
Proof.
  revert off. induction n as [|n IH]; intros off; simpl; [apply kd_ret|].
  apply kd_bind; [apply kd_destroy_at|intros _]. apply IH.
Qed.

Lemma kd_uninit_loop step d doff i n :
  (forall j, keeps_dom (T:=T) (step j)) -> keeps_dom (uninit_loop step d doff i n).
Proof.
  intros Hs. revert i. induction n as [|n IH]; intros i; simpl; [apply kd_ret|].
  apply kd_bind; [|intros _; apply IH].
  apply kd_catch; [apply Hs|intros e].
  apply kd_bind; [apply kd_destroy|intros _]. apply kd_raise.
Qed.

Lemma kd_uninitialized_move s so d doff n : keeps_dom (uninitialized_move ops s so d doff n).
Proof. apply kd_uninit_loop. intros j. apply kd_move_construct_at. Qed.

Lemma kd_uninitialized_default d doff n : keeps_dom (uninitialized_default_construct_n ops d doff n).
Proof. apply kd_uninit_loop. intros j. apply kd_construct_at. Qed.

Lemma kd_uninitialized_fill d doff n x : keeps_dom (uninitialized_fill_n ops d doff n x).
Proof. apply kd_uninit_loop. intros j. apply kd_construct_at. Qed.

(** Never throwing. *)

Lemma nr_bind {A B} (x : mem (T:=T) A) (f : A -> mem B) :
  never_raises x -> (forall a, never_raises (f a)) -> never_raises (x ≫= f).
Proof.
  intros Hx Hf m e m'. unfold_monads. specialize (Hx m).
  destruct (x m) as [a m1|e1 m1|]; [apply Hf| |done].
  intros _. by apply (Hx e1 m1).
Qed.

Lemma nr_ret {A} (a : A) : never_raises (T:=T) (mret a).
Proof. intros m e m'. discriminate. Qed.

Lemma nr_undefined {A} : never_raises (T:=T) (A:=A) undefined.
Proof. intros m e m'. discriminate. Qed.

Lemma nr_deref p : never_raises (T:=T) (deref p).
Proof. intros m e m'. destruct p; discriminate. Qed.

Lemma nr_get_slot b i : never_raises (T:=T) (get_slot b i).
Proof.
  intros m e m'. unfold get_slot, load_block. unfold_monads.
  destruct (heap m !! b); [|discriminate]. by destruct (_ !! i).
Qed.

Lemma nr_set_slot b i s : never_raises (T:=T) (set_slot b i s).
Proof.
  intros m e m'. unfold set_slot, load_block, put_block. unfold_monads.
  destruct (heap m !! b); [|discriminate]. by destruct (i <? length l).
Qed.

Lemma nr_read p i : never_raises (read (T:=T) p i).
Proof.
  apply nr_bind; [apply nr_deref|intros b]. apply nr_bind; [apply nr_get_slot|intros []].
  - apply nr_undefined.
  - apply nr_ret.
Qed.

Lemma nr_destroy_at p i : never_raises (T:=T) (destroy_at p i).
Proof.
  apply nr_bind; [apply nr_deref|intros b]. apply nr_bind; [apply nr_get_slot|intros []].
  - apply nr_undefined.
  - apply nr_set_slot.
Qed.

Lemma nr_destroy p off n : never_raises (T:=T) (destroy p off n).
Proof.
  revert off. induction n as [|n IH]; intros off; simpl; [apply nr_ret|].
  apply nr_bind; [apply nr_destroy_at|intros _]. apply IH.
Qed.

Lemma nr_Deallocate p : never_raises (T:=T) (Deallocate p).
Proof.
  intros m e m'. destruct p as [b|]; simpl; [|discriminate].
  by destruct (heap m !! b).
Qed.

Lemma Deallocate_dom p m :
  match Deallocate (T:=T) p m with
  | MOk _ m' => dom (heap m') = match p with Some b => dom (heap m) ∖ {[b]} | None => dom (heap m) end
  | MExc _ _ => False
  | MUB => True
  end.
Proof.
  destruct p as [b|]; simpl; [|done].
  destruct (heap m !! b); [|done]. simpl. apply dom_delete_L.
Qed.

Lemma Allocate_dom N m :
  match Allocate (T:=T) N m with
  | MOk None m' => m' = m
  | MOk (Some b) m' => (b ∉ dom (heap m)) /\ dom (heap m') = {[b]} ∪ dom (heap m)
  | _ => False
  end.
Proof.
  unfold Allocate. destruct (N =? 0); [by destruct m|].
  simpl. split; [apply is_fresh|apply dom_insert_L].
Qed.

(** The [catch] block of the growth step releases the new block. *)
Lemma grow_handler_dom nd n e m1 e' m2 :
  (destroy (T:=T) nd 0 n ;; Deallocate nd ;; raise (A:=unit) e) m1 = MExc e' m2 ->
  dom (heap m2) = match nd with Some b => dom (heap m1) ∖ {[b]} | None => dom (heap m1) end.
Proof.
  unfold_monads. unfold raise. pose proof (kd_destroy nd 0 n m1) as Hd.
  destruct (destroy nd 0 n m1) as [[] m1'|e1 m1'|] eqn:E; [| |discriminate].
  - pose proof (Deallocate_dom nd m1') as Hdl.
    destruct (Deallocate nd m1') as [[] m2'| |]; [|done|discriminate].
    intros [= <- <-]. rewrite Hdl. by destruct nd; rewrite Hd.
  - exfalso. by apply (nr_destroy nd 0 n m1 e1 m1').
Qed.

Lemma catch_exc {A} (x : mem (T:=T) A) h m e m' :
  catch x h m = MExc e m' -> exists e1 m1, x m = MExc e1 m1 /\ h e1 m1 = MExc e m'.
Proof. unfold catch. destruct (x m); [discriminate|eauto|discriminate]. Qed.

(** When the growth step throws, the fields of the vector are as before
    and so is the set of allocated blocks. *)
Lemma grow_exc_dom v N c m e s' :
  (forall p, keeps_dom (c p)) ->
  grow ops v N c (v, m) = Exc e s' -> fst s' = v /\ dom (heap (snd s')) = dom (heap m).
Proof.
  intros Hc. unfold grow, lift, set_data, set_capacity, this, set_this.
  unfold M_bind, M_ret, mbind, mret. cbn [fst snd].
  pose proof (Allocate_dom N m) as HA.
  destruct (Allocate N m) as [p m0| |]; [|done|discriminate].
  cbn [fst snd].
  match goal with |- context [catch ?x ?h m0] =>
    destruct (catch x h m0) as [[] m1|e1 m1|] eqn:Ec end; cbn [fst snd].
  - destruct (destroy (data_ v) 0 (size_ v) m1) as [[] m2|e2 m2|] eqn:Ed; cbn [fst snd].
    + destruct (Deallocate (data_ v) m2) as [[] m3|e3 m3|] eqn:Edl; [discriminate| |discriminate].
      exfalso. by apply (nr_Deallocate _ _ _ _ Edl).
    + exfalso. by apply (nr_destroy _ _ _ _ _ _ Ed).
    + discriminate.
  - intros [= <- <-]. cbn [fst snd]. split; [done|].
    apply catch_exc in Ec as (e0 & m1' & Ex & Eh).
    apply grow_handler_dom in Eh. rewrite Eh.
    assert (Hb : dom (heap m1') = dom (heap m0)).
    { pose proof (kd_bind _ _ (kd_uninitialized_move (data_ v) 0 p 0 (size_ v)) (fun _ => Hc p) m0)
        as H. unfold mbind in H. rewrite Ex in H. exact H. }
    rewrite Hb. destruct p as [b|].
    + destruct HA as [Hn HA]. rewrite HA. set_solver.
    + by subst m0.
  - discriminate.
Qed.

Lemma lift_exc_dom {A} (x : mem A) v m e s' :
  keeps_dom x -> lift x (v, m) = Exc e s' -> fst s' = v /\ dom (heap (snd s')) = dom (heap m).
Proof.
  intros Hx. unfold lift. cbn [fst snd]. specialize (Hx m).
  destruct (x m); [discriminate| |discriminate]. by intros [= <- <-].
Qed.

Lemma then_exc {A B} (f : M (T:=T) A) (g : M B) s e s' :
  (forall s1 e1 s2, g s1 <> Exc e1 s2) -> (f ;; g) s = Exc e s' -> f s = Exc e s'.
Proof.
  intros Hg. unfold mbind, M_bind. destruct (f s) as [a s1|e1 s1|]; intros Habs; [|injection Habs as -> ->; reflexivity|discriminate].
  exfalso. exact (Hg s1 e s' Habs).
Qed.

Lemma set_size_no_exc n s e s' : set_size (T:=T) n s <> Exc e s'.
Proof. discriminate. Qed.

Lemma Resize_with_exc_dom fill n v m e s' :
  (forall p off k, keeps_dom (fill p off k)) ->
  Resize_with ops fill n (v, m) = Exc e s' -> fst s' = v /\ dom (heap (snd s')) = dom (heap m).
Proof.
  intros Hf. unfold Resize_with, this. unfold mbind at 1, M_bind at 1. cbn [fst].
  intros H. apply then_exc in H; [|intros; apply set_size_no_exc].
  destruct (capacity_ v <? n).
  - revert H. apply grow_exc_dom. intros p. apply Hf.
  - destruct (n <? size_ v); revert H; apply lift_exc_dom; [apply kd_destroy|apply Hf].
Qed.

Lemma Reserve_exc_dom n v m e s' :
  Reserve ops n (v, m) = Exc e s' -> fst s' = v /\ dom (heap (snd s')) = dom (heap m).
Proof.
  unfold Reserve, this. unfold mbind at 1, M_bind at 1. cbn [fst].
  destruct (capacity_ v <? n); [|discriminate].
  apply grow_exc_dom. intros p. apply kd_ret.
Qed.

Lemma ShrinkToFit_exc_dom v m e s' :
  ShrinkToFit ops (v, m) = Exc e s' -> fst s' = v /\ dom (heap (snd s')) = dom (heap m).
Proof.
  unfold ShrinkToFit, this. unfold mbind at 1, M_bind at 1. cbn [fst].
  destruct (size_ v =? 0).
  - unfold mbind, M_bind, lift, set_data, set_capacity, this, set_this. cbn [fst snd].
    destruct (Deallocate (data_ v) m) as [[] m1|e1 m1|] eqn:E; [discriminate| |discriminate].
    exfalso. by apply (nr_Deallocate _ _ _ _ E).
  - destruct (size_ v <? capacity_ v); [|discriminate].
    apply grow_exc_dom. intros p. apply kd_ret.
Qed.

Lemma grow_push_exc_dom construct v m e s' :
  (forall p i, keeps_dom (construct p i)) ->
  grow_push ops construct (v, m) = Exc e s' -> fst s' = v /\ dom (heap (snd s')) = dom (heap m).
Proof.
  intros Hc. unfold grow_push, this. unfold mbind at 1, M_bind at 1. cbn [fst].
  intros H. apply then_exc in H; [|intros; unfold mbind, M_bind, this; apply set_size_no_exc].
  destruct (size_ v =? capacity_ v); revert H.
  - apply grow_exc_dom. intros p. apply Hc.
  - apply lift_exc_dom, Hc.
Qed.

End Footprint.


Section Ctors.
Context {T : Type} (ops : ElemOps T).
Local Abbreviation machine := (@machine T).
Implicit Types (m : machine).

Ltac unfold_monads :=
  unfold mbind, mret, mem_bind, mem_ret, M_bind, M_ret, W_bind, W_ret in *.

(** The construction loop of [uninitialized_default_construct_n],
    [uninitialized_fill_n] and the list constructor on raw storage, in
    every outcome: it builds [n] objects, or throws [ElementFailure] with
    the objects it built destroyed again; never undefined behaviour. *)
Lemma fill_cases b A (done : list T) n C step (mk : nat -> nat -> option T) m :
  (forall j, length done <= j < length done + n ->
             step j = construct_at (Some b) (length A + j) (mk j)) ->
  heap m !! b = Some (A ++ map Live done ++ replicate n Raw ++ C) ->
  match uninit_loop step (Some b) (length A) (length done) n m with
  | MOk _ m' => exists ys, length ys = n /\
      (forall j y, ys !! j = Some y -> exists k, mk (length done + j) k = Some y) /\
      heap m' = <[b := A ++ map Live (done ++ ys) ++ C]> (heap m)
  | MExc e m' => e = ElementFailure /\
      heap m' = <[b := A ++ replicate (length done + n) Raw ++ C]> (heap m)
  | MUB => False
  end.
Proof.
  revert done m. induction n as [|n IH]; intros done m Hstep Hb; simpl.
  - exists []. rewrite app_nil_r. split; [done|]. split; [intros j y Hj; done|].
    simpl in Hb. by rewrite insert_id.
  - unfold_monads. unfold catch.
    rewrite (Hstep (length done)) by lia.
    replace (length A + length done) with (length (A ++ map Live done))
      by (rewrite length_app, length_map; lia).
    rewrite app_assoc in Hb. simpl in Hb.
    rewrite (construct_at_ok _ _ _ _ _ _ Hb).
    destruct (mk (length done) (ctor_count m)) as [y|] eqn:Hy.
    + set (m1 := mkMachine _ _).
      assert (Hb1 : heap m1 !! b = Some (A ++ map Live (done ++ [y]) ++ replicate n Raw ++ C)).
      { simpl. rewrite lookup_insert_eq. by rewrite map_Live_snoc. }
      assert (Hstep1 : forall j, length (done ++ [y]) <= j < length (done ++ [y]) + n ->
                 step j = construct_at (Some b) (length A + j) (mk j)).
      { intros j Hj. rewrite length_app in Hj. simpl in Hj. apply Hstep. lia. }
      pose proof (IH (done ++ [y]) m1 Hstep1 Hb1) as H.
      replace (length (done ++ [y])) with (S (length done)) in H
        by (rewrite length_app; simpl; lia).
      destruct (uninit_loop step (Some b) (length A) (S (length done)) n m1) as [[] m2|e m2|];
        [|destruct H as [He Hm2]; split; [done|]|done].
      * destruct H as (ys & Hlen & Hmk & Hm2). exists (y :: ys).
        split; [simpl; lia|]. split.
        -- intros [|j] z Hj; simpl in Hj.
           ++ injection Hj as <-. rewrite Nat.add_0_r. by exists (ctor_count m).
           ++ destruct (Hmk j z Hj) as [k Hk]. exists k.
              by replace (length done + S j) with (S (length done) + j) by lia.
        -- rewrite Hm2. simpl. rewrite insert_insert_eq, <- app_assoc. done.
      * rewrite Hm2. simpl. rewrite insert_insert_eq, Nat.add_succ_r. done.
    + rewrite <- app_assoc in Hb. simpl in Hb.
      rewrite (destroy_ok b A done (replicate (S n) Raw ++ C)); [|done].
      unfold raise. simpl. split; [done|].
      rewrite replicate_add, <- app_assoc. done.
Qed.

Section Faithful.
Hypothesis copy_faithful : forall k x y, copy_ctor ops k x = Some y -> y = x.

(** X6: when the copy constructor copies faithfully, the iterator-range
    constructor on [v.begin()], [v.end()] of a vector stored in memory
    either returns a vector of size and capacity [v.size_] holding the same
    elements in a fresh block, [v] still holding them; or throws with the
    heap as it was.  It never has undefined behaviour. *)
Theorem range_ctor_spec v m xs :
  stored v m xs ->
  match new_from_range ops (begin_ v) (end_ v) m with
  | MOk w m' => size_ w = size_ v /\ capacity_ w = size_ v /\ stored w m' xs /\
      stored v m' xs /\ (forall b, data_ w = Some b -> heap m !! b = None)
  | MExc e m' => heap m' = heap m
  | MUB => False
  end.
Proof.
  intros Hst. pose proof Hst as (Hlen & Hle & Hd).
  unfold new_from_range, begin_, end_. cbn [fst snd]. rewrite Nat.sub_0_r.
  unfold mbind, mret, mem_bind, mem_ret.
  destruct (Nat.eq_dec (size_ v) 0) as [Hs0|Hs0].
  - unfold Allocate. rewrite Hs0. simpl.
    destruct xs; [|simpl in Hlen; lia].
    split; [done|]. split; [done|]. split; [unfold stored; simpl; lia|].
    split; [done|]. done.
  - destruct (data_ v) as [bs|] eqn:Es; [|lia]. destruct Hd as [Hcap Hbs].
    rewrite (Allocate_ok (size_ v) m Hs0).
    pose proof (fresh_block m) as Hfr.
    set (nb := fresh (dom (heap m))) in *.
    assert (Hne : bs <> nb) by (intros ->; congruence).
    unfold catch, uninitialized_copy. rewrite <- Hlen.
    set (m1 := mkMachine (<[nb := replicate (length xs) Raw]> (heap m)) (ctor_count m)).
    assert (Hs1 : heap m1 !! bs = Some (map Live [] ++ map Live xs ++
                                        replicate (capacity_ v - size_ v) Raw))
      by (simpl; by rewrite lookup_insert_ne).
    assert (Hd1 : heap m1 !! nb = Some (map Live [] ++ replicate (length xs) Raw ++ []))
      by (simpl; by rewrite lookup_insert_eq, app_nil_r).
    pose proof (copy_loop_total ops bs nb [] xs [] _ _ m1 Hne eq_refl Hs1 Hd1) as Htot.
    pose proof (copy_loop_ok ops bs nb [] xs [] (replicate (capacity_ v - size_ v) Raw) [] m1) as Hok.
    pose proof (copy_loop_exc ops bs nb [] xs [] (replicate (capacity_ v - size_ v) Raw) [] m1) as Hexc.
    simpl length in Htot, Hok, Hexc.
    destruct (uninit_loop _ (Some nb) 0 0 (length xs) m1) as [[] m2|e m2|] eqn:Hrun;
      [| |done].
    + destruct (Hok m2 Hne eq_refl Hs1 Hd1 eq_refl) as (ys & Hall & Hheap).
      apply copied_eq in Hall as ->; [|done]. simpl.
      split; [done|]. split; [done|]. split; [|split].
      * unfold stored; simpl. split; [done|]. split; [lia|]. split; [lia|].
        rewrite Hheap. simpl. rewrite lookup_insert_eq, Hlen, Nat.sub_diag. done.
      * unfold stored. rewrite Es. split; [done|]. split; [done|]. split; [done|].
        rewrite Hheap. simpl. rewrite !lookup_insert_ne by done. done.
      * by intros b [= <-].
    + destruct (Hexc e m2 Hne eq_refl Hs1 Hd1 eq_refl) as (l' & Hheap).
      unfold Deallocate. rewrite Hheap, lookup_insert_eq. simpl.
      rewrite delete_insert_eq. simpl. rewrite delete_insert_eq.
      by apply delete_id.
Qed.

End Faithful.

End Ctors.


Section Members.
Context {T : Type} (ops : ElemOps T).
Local Abbreviation machine := (@machine T).
Implicit Types (m : machine).

Ltac unfold_monads :=
  unfold mbind, mret, mem_bind, mem_ret, M_bind, M_ret, W_bind, W_ret in *.

Lemma Clear_stored v m xs :
  stored v m xs ->
  Clear (v, m) = Ok tt (mkVec 0 (capacity_ v) (data_ v),
                        mkMachine (match data_ v with
                                   | Some b => <[b := replicate (capacity_ v) Raw]> (heap m)
                                   | None => heap m
                                   end) (ctor_count m)).
Proof.
  intros (Hlen & Hle & Hd). unfold Clear, this, set_size, set_this, lift. unfold_monads.
  cbn [fst snd]. destruct (data_ v) as [b|] eqn:Ed.
  - destruct Hd as [_ Hb].
    replace (size_ v) with (length xs) by done.
    rewrite (destroy_ok b [] xs (replicate (capacity_ v - size_ v) Raw)) by done.
    simpl. rewrite <- replicate_add, Ed. repeat f_equal. lia.
  - assert (Hs : size_ v = 0) by lia. rewrite machine_eta.
    destruct v as [s c d]. cbn in Hs, Ed. subst s d. reflexivity.
Qed.

Lemma PopBack_stored v m xs x :
  stored v m (xs ++ [x]) ->
  PopBack (v, m) = Ok tt (mkVec (length xs) (capacity_ v) (data_ v),
                          mkMachine (match data_ v with
                                     | Some b => <[b := map Live xs ++ replicate (capacity_ v - length xs) Raw]> (heap m)
                                     | None => heap m
                                     end) (ctor_count m)) /\
  stored (mkVec (length xs) (capacity_ v) (data_ v))
         (mkMachine (match data_ v with
                     | Some b => <[b := map Live xs ++ replicate (capacity_ v - length xs) Raw]> (heap m)
                     | None => heap m
                     end) (ctor_count m)) xs.
Proof.
  intros (Hlen & Hle & Hd). rewrite length_app in Hlen. simpl in Hlen.
  destruct (data_ v) as [b|] eqn:Ed; [|lia]. destruct Hd as [Hcap Hb].
  split.
  - unfold PopBack, this, set_size, set_this, lift. unfold_monads. cbn [fst snd].
    destruct (Nat.ltb_spec 0 (size_ v)); [|lia].
    replace (size_ v - 1) with (length (map Live xs)) by (rewrite length_map; lia).
    rewrite map_app in Hb. simpl in Hb. rewrite <- app_assoc in Hb. simpl in Hb.
    rewrite Ed. cbn [fst snd]. rewrite (destroy_at_ok _ _ _ _ _ Hb). unfold this. simpl. rewrite length_map.
    rewrite Ed. replace (capacity_ v - length xs) with (S (capacity_ v - size_ v)) by lia.
    done.
  - unfold stored; simpl. rewrite lookup_insert_eq. split; [done|]. split; [lia|]. split; [lia|done].
Qed.

Lemma PopBack_empty v m : stored v m [] -> PopBack (T:=T) (v, m) = Ok tt (v, m).
Proof.
  intros (Hlen & _). unfold PopBack, this. unfold_monads. cbn [fst].
  simpl in Hlen. rewrite <- Hlen. done.
Qed.

(** [PushBack] and [EmplaceBack] on a vector with spare capacity keep the
    block. *)
Lemma grow_push_nogrow construct v m s' :
  size_ v <> capacity_ v -> grow_push ops construct (v, m) = Ok tt s' ->
  fst s' = mkVec (S (size_ v)) (capacity_ v) (data_ v).
Proof.
  intros Hne. unfold grow_push, this, set_size, set_this, lift. unfold_monads. cbn [fst snd].
  rewrite (proj2 (Nat.eqb_neq _ _) Hne).
  change (snd (v, m)) with m. change (fst (v, m)) with v.
  destruct (construct (data_ v) (size_ v) m) as [[] m1| |]; intros H; simpl in H; [|discriminate|discriminate].
  injection H as <-. done.
Qed.

(** [Resize] to at most the size constructs nothing and cannot throw. *)
Lemma Resize_with_shrink fill n v m xs :
  stored v m xs -> n <= size_ v ->
  (forall p off m1, fill p off 0 m1 = MOk tt m1) ->
  Resize_with ops fill n (v, m) =
    Ok tt (mkVec n (capacity_ v) (data_ v),
           mkMachine (match data_ v with
                      | Some b => <[b := map Live (take n xs) ++ replicate (capacity_ v - n) Raw]> (heap m)
                      | None => heap m
                      end) (ctor_count m)).
Proof.
  intros (Hlen & Hle & Hd) Hn Hfill0.
  unfold Resize_with, this, set_size, set_this, lift. unfold_monads. cbn [fst snd]. change (snd (v, m)) with m. change (fst (v, m)) with v.
  destruct (Nat.ltb_spec (capacity_ v) n); [lia|].
  destruct (Nat.ltb_spec n (size_ v)) as [Hlt|Hge].
  - destruct (data_ v) as [b|] eqn:Ed; [|lia]. destruct Hd as [Hcap Hb].
    rewrite <- (take_drop n xs), map_app, <- app_assoc in Hb.
    assert (E1 : length (map Live (take n xs)) = n) by (rewrite length_map, length_take; lia).
    assert (E2 : length (drop n xs) = size_ v - n) by (rewrite length_drop; lia).
    rewrite <- E1 at 1. rewrite <- E2. simpl. rewrite (destroy_ok _ _ _ _ _ Hb). simpl.
    rewrite E2, Ed, <- replicate_add. repeat f_equal. lia.
  - assert (n = size_ v) as -> by lia. rewrite Nat.sub_diag, Hfill0. simpl.
    rewrite take_ge by lia.
    destruct (data_ v) as [b|] eqn:Ed.
    + destruct Hd as [_ Hb]. rewrite insert_id by done. by rewrite machine_eta.
    + by rewrite machine_eta.
Qed.

(** Reading past the size: raw storage, past the block, or [nullptr]. *)
Lemma read_past v m xs i :
  stored v m xs -> size_ v <= i -> read (data_ v) i m = MUB.
Proof.
  intros (Hlen & Hle & Hd) Hi. unfold read, deref, get_slot, load_block. unfold_monads.
  destruct (data_ v) as [b|]; [|done]. destruct Hd as [_ Hb]. rewrite Hb.
  destruct (decide (i < capacity_ v)).
  - rewrite lookup_app_r by (rewrite length_map; lia).
    rewrite lookup_replicate_2 by (rewrite length_map; lia). done.
  - rewrite lookup_ge_None_2; [done|]. rewrite length_app, length_map, length_replicate. lia.
Qed.

End Members.


Section NoThrow.
Context {T : Type} (ops : ElemOps T).
Local Abbreviation machine := (@machine T).
Implicit Types (m : machine).

Ltac unfold_monads :=
  unfold mbind, mret, mem_bind, mem_ret, M_bind, M_ret, W_bind, W_ret in *.

Lemma nt_bind {A B} (f : M (T:=T) A) (g : A -> M B) :
  no_throw f -> (forall a, no_throw (g a)) -> no_throw (f ≫= g).
Proof.
  intros Hf Hg s e s'. unfold_monads.
  destruct (f s) as [a s1|e1 s1|] eqn:E; [apply Hg| |discriminate].
  intros _. exact (Hf s e1 s1 E).
Qed.

Lemma nt_ret {A} (a : A) : no_throw (T:=T) (mret a).
Proof. intros s e s'. discriminate. Qed.

Lemma nt_this : no_throw (T:=T) this.
Proof. intros s e s'. discriminate. Qed.

Lemma nt_set_size n : no_throw (T:=T) (set_size n).
Proof. intros s e s'. discriminate. Qed.

Lemma nt_lift {A} (x : mem (T:=T) A) : never_raises x -> no_throw (lift x).
Proof.
  intros Hx s e s'. unfold lift.
  destruct (x (snd s)) eqn:E; try discriminate. intros _. exact (Hx _ _ _ E).
Qed.

Lemma Clear_no_throw : no_throw (T:=T) Clear.
Proof.
  unfold Clear. apply nt_bind; [apply nt_this|intros v].
  destruct (data_ v); [|apply nt_ret].
  apply nt_bind; [apply nt_lift, nr_destroy|intros _; apply nt_set_size].
Qed.

Lemma PopBack_no_throw : no_throw (T:=T) PopBack.
Proof.
  unfold PopBack. apply nt_bind; [apply nt_this|intros v].
  destruct (0 <? size_ v); [|apply nt_ret].
  apply nt_bind; [apply nt_lift, nr_destroy_at|intros _; apply nt_set_size].
Qed.

Lemma destruct_no_throw : no_throw (T:=T) destruct_vec.
Proof.
  unfold destruct_vec. apply nt_bind; [apply Clear_no_throw|intros _].
  apply nt_bind; [apply nt_this|intros v]. apply nt_lift, nr_Deallocate.
Qed.

Lemma index_op_no_throw i : no_throw (T:=T) (index_op i).
Proof. unfold index_op. apply nt_bind; [apply nt_this|intros v]. apply nt_lift, nr_read. Qed.

Lemma Front_no_throw : no_throw (T:=T) Front.
Proof. unfold Front. apply nt_bind; [apply nt_this|intros v]. apply nt_lift, nr_read. Qed.

Lemma Back_no_throw : no_throw (T:=T) Back.
Proof. unfold Back. apply nt_bind; [apply nt_this|intros v]. apply nt_lift, nr_read. Qed.

Lemma w_nt_bind {A B} (f : W (T:=T) A) (g : A -> W B) :
  w_no_throw f -> (forall a, w_no_throw (g a)) -> w_no_throw (f ≫= g).
Proof.
  intros Hf Hg w e w'. unfold_monads.
  destruct (f w) as [a w1|e1 w1|] eqn:E; [apply Hg| |discriminate].
  intros _. exact (Hf w e1 w1 E).
Qed.

Lemma w_nt_ret {A} (a : A) : w_no_throw (T:=T) (mret a).
Proof. intros w e w'. discriminate. Qed.

Lemma w_nt_load a : w_no_throw (T:=T) (load a).
Proof. intros w e w'. unfold load. by destruct (objs w !! a). Qed.

Lemma w_nt_store a v : w_no_throw (T:=T) (store a v).
Proof. intros w e w'. discriminate. Qed.

Lemma w_nt_absent a : w_no_throw (T:=T) (absent a).
Proof. intros w e w'. unfold absent. by destruct (objs w !! a). Qed.

Lemma w_nt_run_method {A} a (f : M (T:=T) A) : no_throw f -> w_no_throw (run_method a f).
Proof.
  intros Hf w e w'. unfold run_method. destruct (objs w !! a) as [v|]; [|discriminate].
  destruct (f (v, mach w)) as [x [v' m']|e1 [v' m']|] eqn:E; try discriminate.
  intros _. exact (Hf _ _ _ E).
Qed.

End NoThrow.

Section Members2.
Context {T : Type} (ops : ElemOps T).
Local Abbreviation machine := (@machine T).
Implicit Types (m : machine).

Ltac unfold_monads :=
  unfold mbind, mret, mem_bind, mem_ret, M_bind, M_ret, W_bind, W_ret in *.

(** Placement new at the end of a vector with spare capacity: when it
    throws, the vector and the heap are as they were. *)
Lemma construct_in_place_exc v m xs mk e s' :
  stored v m xs -> size_ v < capacity_ v ->
  grow_push ops (fun p i => construct_at p i mk) (v, m) = Exc e s' ->
  e = ElementFailure /\ fst s' = v /\ heap (snd s') = heap m.
Proof.
  intros (Hlen & Hle & Hd) Hlt.
  destruct (data_ v) as [b|] eqn:Ed; [|lia].
  unfold grow_push, this, set_size, set_this, lift. unfold_monads. cbn [fst snd].
  destruct (Nat.eqb_spec (size_ v) (capacity_ v)); [lia|].
  change (snd (v, m)) with m. change (fst (v, m)) with v. rewrite Ed.
  unfold construct_at, deref, tick, raise. unfold_monads. cbn [heap ctor_count].
  destruct (mk (ctor_count m)) as [x|].
  - unfold set_slot, load_block, put_block. unfold_monads. cbn [heap ctor_count].
    destruct (heap m !! b) as [l|]; [|discriminate].
    destruct (size_ v <? length l); discriminate.
  - intros H. injection H as <- <-. done.
Qed.

(** [Resize] within the capacity: when the construction of the new tail
    throws, the vector and the heap are as they were. *)
Lemma fill_in_place_exc (mk : nat -> option T) fill v m xs n e s' :
  (forall d off k, fill d off k = uninit_loop (fun i => construct_at d (off + i) mk) d off 0 k) ->
  stored v m xs -> n <= capacity_ v ->
  Resize_with ops fill n (v, m) = Exc e s' ->
  e = ElementFailure /\ fst s' = v /\ heap (snd s') = heap m.
Proof.
  intros Hfill (Hlen & Hle & Hd) Hn.
  unfold Resize_with, this. unfold mbind at 1, M_bind at 1. cbn [fst].
  intros H. apply then_exc in H; [|intros; apply set_size_no_exc].
  destruct (Nat.ltb_spec (capacity_ v) n); [lia|].
  destruct (Nat.ltb_spec n (size_ v)).
  - exfalso. unfold lift in H.
    destruct (destroy (data_ v) n (size_ v - n) (snd (v, m))) eqn:E; try discriminate.
    exact (nr_destroy _ _ _ _ _ _ E).
  - rewrite Hfill in H. unfold lift in H. change (snd (v, m)) with m in H.
    destruct (data_ v) as [b|] eqn:Ed.
    + destruct Hd as [_ Hb].
      assert (HA : length (map Live xs) = size_ v) by (by rewrite length_map).
      assert (Hb' : heap m !! b = Some (map Live xs ++ map Live [] ++
                      replicate (n - size_ v) Raw ++ replicate (capacity_ v - n) Raw)).
      { rewrite Hb. simpl. rewrite <- replicate_add. do 3 f_equal. lia. }
      pose proof (fill_cases b (map Live xs) [] (n - size_ v) (replicate (capacity_ v - n) Raw)
                    (fun i => construct_at (Some b) (size_ v + i) mk) (fun _ => mk) m) as F.
      rewrite HA in F. specialize (F (fun j _ => eq_refl) Hb'). cbn [length] in F.
      revert F H.
      destruct (uninit_loop _ (Some b) (size_ v) 0 (n - size_ v) m) as [[] m1|e1 m1|];
        [discriminate| |done].
      intros [-> Hm1] H. injection H as <- <-. split; [done|]. split; [done|].
      simpl. rewrite Hm1. apply insert_id. rewrite Hb'. done.
    + replace (n - size_ v) with 0 in H by lia. discriminate.
Qed.

Lemma Clear_then_ShrinkToFit v m xs :
  stored v m xs ->
  (Clear ;; ShrinkToFit ops) (v, m) =
    Ok tt (mkVec 0 0 None, mkMachine (release (data_ v) (heap m)) (ctor_count m)).
Proof.
  intros Hst. unfold mbind at 1, M_bind at 1. rewrite (Clear_stored v m xs Hst).
  unfold ShrinkToFit, this, lift, set_data, set_capacity, set_this. unfold_monads. cbn [fst snd].
  destruct (data_ v) as [b|] eqn:Ed; simpl.
  - rewrite lookup_insert_eq. simpl. by rewrite delete_insert_eq.
  - by rewrite machine_eta.
Qed.

Lemma destruct_exact d m ds :
  stored d m ds ->
  destruct_vec (d, m) =
    Ok tt (mkVec 0 (capacity_ d) (data_ d), mkMachine (release (data_ d) (heap m)) (ctor_count m)).
Proof.
  intros Hst. unfold destruct_vec. unfold mbind at 1, M_bind at 1. rewrite (Clear_stored d m ds Hst).
  unfold this, lift. unfold_monads. cbn [fst snd data_].
  destruct (data_ d) as [b|] eqn:Ed; simpl.
  - rewrite lookup_insert_eq. simpl. by rewrite delete_insert_eq.
  - by rewrite machine_eta.
Qed.

Lemma Swap_ok w a b va vb :
  objs w !! a = Some va -> objs w !! b = Some vb ->
  Swap (T:=T) a b w = WOk tt (mkWorld (<[b := va]> (<[a := vb]> (objs w))) (mach w)).
Proof. intros Ha Hb. unfold Swap, load, store. unfold_monads. rewrite Ha, Hb. done. Qed.

Lemma spec_eq_refl (xs : list T) : (forall x, elem_eq ops x x = true) -> spec_eq (elem_eq ops) xs xs = true.
Proof.
  intros Hr. unfold spec_eq. rewrite Nat.eqb_refl. simpl.
  induction xs as [|x xs IH]; [done|]. simpl. by rewrite Hr, IH.
Qed.

End Members2.


Section Extras.
Context {T : Type} (ops : ElemOps T).
Local Abbreviation machine := (@machine T).
Implicit Types (m : machine).

Ltac unfold_monads :=
  unfold mbind, mret, mem_bind, mem_ret, M_bind, M_ret, W_bind, W_ret in *.

(** X1: when [Resize], [Resize(value)], [Reserve], [ShrinkToFit],
    [PushBack] (by copy or by move) or [EmplaceBack] throws, from any
    state, the fields of the vector are as before and the set of allocated
    blocks is as before: the new block is released, nothing leaks. *)
Theorem growth_exception_no_leak v m e s' :
  (forall n, Resize ops n (v, m) = Exc e s' \/ (exists value, Resize_value ops n value (v, m) = Exc e s') ->
     fst s' = v /\ dom (heap (snd s')) = dom (heap m)) /\
  (forall n, Reserve ops n (v, m) = Exc e s' -> fst s' = v /\ dom (heap (snd s')) = dom (heap m)) /\
  (ShrinkToFit ops (v, m) = Exc e s' -> fst s' = v /\ dom (heap (snd s')) = dom (heap m)) /\
  (forall x, PushBack ops x (v, m) = Exc e s' \/ PushBack_move ops x (v, m) = Exc e s' ->
     fst s' = v /\ dom (heap (snd s')) = dom (heap m)) /\
  (forall mk, EmplaceBack ops mk (v, m) = Exc e s' -> fst s' = v /\ dom (heap (snd s')) = dom (heap m)).
Proof.
  split; [|split; [|split; [|split]]].
  - intros n [H|[value H]]; revert H; apply Resize_with_exc_dom; intros p off k.
    + apply kd_uninitialized_default.
    + apply kd_uninitialized_fill.
  - intros n. apply Reserve_exc_dom.
  - apply ShrinkToFit_exc_dom.
  - intros x [H|H]; revert H; apply grow_push_exc_dom; intros p i; apply kd_construct_at.
  - intros mk. apply grow_push_exc_dom. intros p i. apply kd_construct_at.
Qed.

(** X2: on a vector stored in memory, a [PushBack] or [EmplaceBack] with
    spare capacity and a [Resize] to at most the capacity construct in
    place; when that construction throws, the exception is the element's
    and the vector and the heap are exactly as before. *)
Theorem in_place_strong_guarantee v m xs :
  stored v m xs ->
  (size_ v < capacity_ v -> forall x e s',
     PushBack ops x (v, m) = Exc e s' \/ PushBack_move ops x (v, m) = Exc e s' ->
     e = ElementFailure /\ fst s' = v /\ heap (snd s') = heap m) /\
  (size_ v < capacity_ v -> forall mk e s', EmplaceBack ops mk (v, m) = Exc e s' ->
     e = ElementFailure /\ fst s' = v /\ heap (snd s') = heap m) /\
  (forall n e s', n <= capacity_ v ->
     Resize ops n (v, m) = Exc e s' \/ (exists value, Resize_value ops n value (v, m) = Exc e s') ->
     e = ElementFailure /\ fst s' = v /\ heap (snd s') = heap m).
Proof.
  intros Hst. split; [|split].
  - intros Hlt x e s' [H|H]; exact (construct_in_place_exc ops v m xs _ e s' Hst Hlt H).
  - intros Hlt mk e s' H. exact (construct_in_place_exc ops v m xs mk e s' Hst Hlt H).
  - intros n e s' Hn [H|[value H]].
    + exact (fill_in_place_exc ops (default_ctor ops) _ v m xs n e s' (fun _ _ _ => eq_refl) Hst Hn H).
    + exact (fill_in_place_exc ops (fun k => copy_ctor ops k value) _ v m xs n e s'
               (fun _ _ _ => eq_refl) Hst Hn H).
Qed.

(** X7: [Clear()] on a vector stored in memory destroys every element,
    keeps the block and the capacity, and leaves an empty vector stored. *)
Theorem Clear_spec v m xs :
  stored v m xs ->
  let m' := mkMachine (match data_ v with
                       | Some b => <[b := replicate (capacity_ v) Raw]> (heap m)
                       | None => heap m
                       end) (ctor_count m) in
  Clear (v, m) = Ok tt (mkVec 0 (capacity_ v) (data_ v), m') /\
  stored (mkVec 0 (capacity_ v) (data_ v)) m' [].
Proof.
  intros Hst m'. split; [exact (Clear_stored v m xs Hst)|].
  destruct Hst as (Hlen & Hle & Hd). split; [done|]. split; [simpl; lia|].
  simpl. subst m'. destruct (data_ v) as [b|]; [|done].
  destruct Hd as [Hc _]. split; [done|]. simpl. rewrite lookup_insert_eq. by rewrite Nat.sub_0_r.
Qed.

(** X8: [PopBack()] on an empty vector changes nothing; on a vector
    holding [xs ++ [x]] it destroys the last element only and leaves [xs]
    stored, with the same block and capacity. *)
Theorem PopBack_spec v m xs :
  stored v m xs ->
  (xs = [] -> PopBack (v, m) = Ok tt (v, m)) /\
  (forall ys y, xs = ys ++ [y] ->
     let m' := mkMachine (match data_ v with
                          | Some b => <[b := map Live ys ++ replicate (capacity_ v - length ys) Raw]> (heap m)
                          | None => heap m
                          end) (ctor_count m) in
     PopBack (v, m) = Ok tt (mkVec (length ys) (capacity_ v) (data_ v), m') /\
     stored (mkVec (length ys) (capacity_ v) (data_ v)) m' ys).
Proof.
  intros Hst. split.
  - intros ->. exact (PopBack_empty v m Hst).
  - intros ys y ->. exact (PopBack_stored v m ys y Hst).
Qed.

(** X13: [Resize(n)] and [Resize(n, value)] with [n] at most the size
    cannot throw and construct nothing: they destroy the elements from
    [n] on and keep the block and the capacity. *)
Theorem Resize_shrink_no_throw v m xs n :
  stored v m xs -> n <= size_ v ->
  let s' := (mkVec n (capacity_ v) (data_ v),
             mkMachine (match data_ v with
                        | Some b => <[b := map Live (take n xs) ++ replicate (capacity_ v - n) Raw]> (heap m)
                        | None => heap m
                        end) (ctor_count m)) in
  Resize ops n (v, m) = Ok tt s' /\ forall value, Resize_value ops n value (v, m) = Ok tt s'.
Proof.
  intros Hst Hn s'. split.
  - exact (Resize_with_shrink ops _ n v m xs Hst Hn (fun _ _ _ => eq_refl)).
  - intros value. exact (Resize_with_shrink ops _ n v m xs Hst Hn (fun _ _ _ => eq_refl)).
Qed.

(** X14: [Swap(other)] exchanges the fields of the two objects and touches
    no memory; swapping twice gives back the objects as they were. *)
Theorem Swap_spec w a b va vb :
  objs w !! a = Some va -> objs w !! b = Some vb ->
  Swap (T:=T) a b w = WOk tt (mkWorld (<[b := va]> (<[a := vb]> (objs w))) (mach w)) /\
  (Swap a b ≫= fun _ => Swap a b) w = WOk tt w.
Proof.
  intros Ha Hb.
  assert (H1 := Swap_ok w a b va vb Ha Hb).
  split; [exact H1|]. unfold mbind at 1, W_bind at 1. rewrite H1.
  destruct (decide (a = b)) as [<-|Hne].
  - rewrite Ha in Hb. injection Hb as <-.
    rewrite (Swap_ok _ a a va va); [|cbn [objs]; by rewrite lookup_insert_eq..].
    cbn [objs mach]. rewrite !insert_insert_eq, insert_id by done. by destruct w.
  - rewrite (Swap_ok _ a b vb va).
    + destruct w as [o mw]. cbn [objs mach]. do 2 f_equal.
      apply map_eq. intros i.
      destruct (decide (i = b)) as [->|Hib]; [rewrite lookup_insert_eq; done|].
      rewrite lookup_insert_ne by done.
      destruct (decide (i = a)) as [->|Hia]; [rewrite lookup_insert_eq; done|].
      rewrite !lookup_insert_ne by done. done.
    + cbn [objs]. rewrite lookup_insert_ne by done. by rewrite lookup_insert_eq.
    + cbn [objs]. by rewrite lookup_insert_eq.
Qed.

(** X15: [operator[](i)] on a vector stored in memory returns element [i]
    when [i < size_], with nothing changed; it checks no bound, and for
    [i >= size_] the read is undefined behaviour, not an exception. *)
Theorem index_op_spec v m xs :
  stored v m xs ->
  (forall i x, xs !! i = Some x -> index_op i (v, m) = Ok x (v, m)) /\
  (forall i, size_ v <= i -> index_op (T:=T) i (v, m) = UB).
Proof.
  intros Hst. unfold index_op, this, lift. unfold_monads. cbn [fst snd]. split.
  - intros i x Hx. by rewrite (read_stored v m xs i x Hst Hx).
  - intros i Hi. by rewrite (read_past v m xs i Hst Hi).
Qed.

(** X16: [Front()] and [Back()] on a vector stored in memory return the
    first and the last element; on an empty vector both are undefined
    behaviour ([Back] reads [data_[SIZE_MAX]]). *)
Theorem Front_Back_spec v m xs :
  stored v m xs ->
  (forall x ys, xs = x :: ys -> Front (v, m) = Ok x (v, m)) /\
  (forall ys y, xs = ys ++ [y] -> Back (v, m) = Ok y (v, m)) /\
  (xs = [] -> Front (T:=T) (v, m) = UB /\ Back (T:=T) (v, m) = UB).
Proof.
  intros Hst. pose proof Hst as (Hlen & _).
  unfold Front, Back, this, lift. unfold_monads. cbn [fst snd]. split; [|split].
  - intros x ys ->. by rewrite (read_stored v m (x :: ys) 0 x Hst eq_refl).
  - intros ys y ->. rewrite length_app in Hlen. simpl in Hlen.
    replace (size_t_dec (size_ v)) with (length ys) by (rewrite <- Hlen, Nat.add_1_r; done).
    by rewrite (read_stored v m (ys ++ [y]) (length ys) y Hst (list_lookup_middle ys [] y _ eq_refl)).
  - intros ->. simpl in Hlen.
    rewrite (read_past v m [] 0 Hst ltac:(lia)).
    rewrite (read_past v m [] (size_t_dec (size_ v)) Hst); [done|].
    rewrite <- Hlen. simpl. unfold SIZE_MAX. lia.
Qed.

(** X17: what never throws, from any state: [Clear], [PopBack], the
    destructor, [operator[]], [Front], [Back], the move constructor, the
    move assignment and [Swap]; [At] throws nothing but [ArrayOutOfRange],
    and then changes nothing. *)
Theorem noexcept_members :
  no_throw (T:=T) Clear /\ no_throw (T:=T) PopBack /\ no_throw (T:=T) destruct_vec /\
  (forall i, no_throw (T:=T) (index_op i)) /\ no_throw (T:=T) Front /\ no_throw (T:=T) Back /\
  (forall a b, w_no_throw (T:=T) (move_construct a b) /\ w_no_throw (T:=T) (move_assign a b) /\
               w_no_throw (T:=T) (Swap a b)) /\
  (forall i s e s', At (T:=T) i s = Exc e s' -> e = ArrayOutOfRange /\ s' = s).
Proof.
  split; [apply Clear_no_throw|]. split; [apply PopBack_no_throw|].
  split; [apply destruct_no_throw|]. split; [apply index_op_no_throw|].
  split; [apply Front_no_throw|]. split; [apply Back_no_throw|].
  split.
  - intros a b. split; [|split].
    + unfold move_construct. apply w_nt_bind; [apply w_nt_absent|intros _].
      apply w_nt_bind; [apply w_nt_load|intros o].
      apply w_nt_bind; [apply w_nt_store|intros _]. apply w_nt_store.
    + unfold move_assign. destruct (a =? b); [apply w_nt_ret|].
      apply w_nt_bind; [|intros _].
      * apply w_nt_run_method. apply nt_bind; [apply Clear_no_throw|intros _].
        apply nt_bind; [apply nt_this|intros v]. apply nt_lift, nr_Deallocate.
      * apply w_nt_bind; [apply w_nt_load|intros o].
        apply w_nt_bind; [apply w_nt_store|intros _]. apply w_nt_store.
    + unfold Swap. apply w_nt_bind; [apply w_nt_load|intros va].
      apply w_nt_bind; [apply w_nt_load|intros vb].
      apply w_nt_bind; [apply w_nt_store|intros _]. apply w_nt_store.
  - intros i [v m] e s'. unfold At, this, throw, lift. unfold_monads. cbn [fst snd].
    destruct (size_ v <=? i).
    + intros H. by injection H as <- <-.
    + change (snd (v, m)) with m. change (fst (v, m)) with v.
      destruct (read (data_ v) i m) as [x m1|e1 m1|] eqn:E; intros H; try discriminate H.
      exfalso. exact (nr_read _ _ _ _ _ E).
Qed.

(** X19: [Clear()] followed by [ShrinkToFit()] on a vector stored in
    memory leaves the empty vector with no block, its block released and
    every other block untouched. *)
Theorem clear_shrink_releases v m xs :
  stored v m xs ->
  (Clear ;; ShrinkToFit ops) (v, m) =
    Ok tt (mkVec 0 0 None, mkMachine (release (data_ v) (heap m)) (ctor_count m)).
Proof. apply Clear_then_ShrinkToFit. Qed.

(** X20: the destructor of a vector stored in memory destroys its
    elements and releases exactly its block; it neither throws nor has
    undefined behaviour, and constructs nothing. *)
Theorem destructor_releases d m ds :
  stored d m ds ->
  destruct_vec (d, m) =
    Ok tt (mkVec 0 (capacity_ d) (data_ d), mkMachine (release (data_ d) (heap m)) (ctor_count m)).
Proof. apply destruct_exact. Qed.

(** X21: after the move constructor builds [a] from [b], destroying the
    moved-from [b] releases nothing: the memory is as before the move, and
    [a] holds the fields [b] had. *)
Theorem moved_from_destroy w a b s :
  objs w !! b = Some s -> objs w !! a = None ->
  exists w1 w2, move_construct (T:=T) a b w = WOk tt w1 /\
    run_method b destruct_vec w1 = WOk tt w2 /\
    mach w2 = mach w /\ objs w2 !! a = Some s /\ objs w2 !! b = Some empty_vec.
Proof.
  intros Hb Ha.
  assert (Hne : a <> b) by (intros ->; congruence).
  unfold move_construct, absent, load, store. unfold_monads. rewrite Ha. cbn [objs mach].
  rewrite Hb. do 2 eexists. split; [reflexivity|].
  unfold run_method. cbn [objs mach]. rewrite lookup_insert_eq.
  split; [reflexivity|]. cbn [objs mach]. split; [done|].
  rewrite lookup_insert_ne by done. rewrite lookup_insert_ne by done.
  rewrite lookup_insert_eq. destruct s. split; [done|]. by rewrite lookup_insert_eq.
Qed.

Section Moves.
Hypothesis move_faithful : forall k x y x', move_ctor ops k x = Some (y, x') -> y = x.



End Moves.

Section Copies.
Hypothesis copy_faithful : forall k x y, copy_ctor ops k x = Some y -> y = x.
Hypothesis elem_eq_refl : forall x, elem_eq ops x x = true.

(** X18: a copy made by the copy constructor compares equal to its source,
    both ways, when [operator==] of [T] is reflexive and copies produce
    the value they are given. *)
Theorem copy_compares_equal s m ss t m' :
  stored s m ss -> copy_construct ops s m = MOk t m' ->
  op_eq ops t s m' = MOk true m' /\ op_eq ops s t m' = MOk true m' /\
  op_ne ops t s m' = MOk false m'.
Proof.
  intros Hst Hc. pose proof (copy_construct_stored ops copy_faithful s m ss Hst) as G.
  rewrite Hc in G. destruct G as (_ & _ & Ht & _ & Hmono).
  assert (Hs' : stored s m' ss) by (by apply (stored_mono s m)).
  rewrite !(op_eq_stored ops _ _ m' ss ss) by done. rewrite spec_eq_refl by done.
  split; [done|]. split; [done|].
  unfold op_ne. unfold mbind, mem_bind. rewrite (op_eq_stored ops _ _ m' ss ss) by done.
  by rewrite spec_eq_refl.
Qed.

End Copies.

End Extras.

Section Aliasing.
Context {T : Type} (ops : ElemOps T).
Local Abbreviation machine := (@machine T).
Implicit Types (m : machine).

Ltac unfold_monads :=
  unfold mbind, mret, mem_bind, mem_ret, M_bind, M_ret, W_bind, W_ret in *.

Lemma holds_read b j x m : holds b j x m -> read (Some b) j m = MOk x m.
Proof.
  intros (l & Hb & Hj). unfold read, deref. unfold_monads.
  by rewrite (get_slot_ok b j m l (Live x) Hb Hj).
Qed.

Lemma construct_at_holds b j x d k mk m m' :
  holds b j x m -> (d = Some b -> k <> j) ->
  construct_at d k mk m = MOk tt m' -> holds b j x m'.
Proof.
  intros (l & Hb & Hj) Hk H.
  destruct d as [b'|]; [|discriminate].
  unfold construct_at, deref, tick, set_slot, load_block, put_block, raise in H.
  unfold_monads. cbn [heap ctor_count] in H.
  destruct (mk (ctor_count m)) as [y|]; simpl in H; [|discriminate].
  destruct (heap m !! b') as [l'|] eqn:Eb'; [|discriminate].
  destruct (k <? length l'); [|unfold undefined in H; discriminate].
  injection H as <-. cbn [heap].
  destruct (decide (b' = b)) as [->|Hne].
  - rewrite Hb in Eb'. injection Eb' as <-. exists (<[k := Live y]> l). cbn [heap].
    rewrite lookup_insert_eq. split; [done|].
    rewrite list_lookup_insert_ne; [done|]. specialize (Hk eq_refl). lia.
  - exists l. cbn [heap]. rewrite lookup_insert_ne by done. done.
Qed.

Lemma fill_ref_loop b j x d off i k m :
  holds b j x m -> (d = Some b -> j < off) ->
  uninit_loop (fun i => y ← read_ref (RSlot b j);
                        construct_at d (off + i) (fun k => copy_ctor ops k y)) d off i k m =
  uninit_loop (fun i => construct_at d (off + i) (fun k => copy_ctor ops k x)) d off i k m.
Proof.
  revert i m. induction k as [|k IH]; intros i m Hh Hoff; [done|].
  cbn [uninit_loop]. unfold catch, read_ref. unfold_monads.
  rewrite (holds_read b j x m Hh).
  destruct (construct_at d (off + i) (fun k0 => copy_ctor ops k0 x) m) as [[] m1|e m1|] eqn:E;
    [|unfold raise; by destruct (destroy d off i m1)|done].
  apply IH; [|exact Hoff].
  eapply construct_at_holds; [exact Hh| |exact E].
  intros Hd. specialize (Hoff Hd). lia.
Qed.

(** X24: an element [v[j]] of a vector stored in memory, passed by
    reference, is copied before anything of the vector changes when no
    reallocation happens: with [size_ < capacity_], [PushBack(v[j])] runs
    as [PushBack] of the value [v[j]] held elsewhere; with
    [n <= capacity_], [Resize(n, v[j])] runs as [Resize(n, value)] with
    that value. *)
Theorem element_argument_in_place v m xs b j x n :
  stored v m xs -> data_ v = Some b -> xs !! j = Some x ->
  (size_ v < capacity_ v -> PushBack_ref ops (RSlot b j) (v, m) = PushBack ops x (v, m)) /\
  (n <= capacity_ v -> Resize_value_ref ops n (RSlot b j) (v, m) = Resize_value ops n x (v, m)).
Proof.
  intros Hst Hd Hx.
  assert (Hh : holds b j x m).
  { destruct Hst as (Hlen & Hle & Hdv). rewrite Hd in Hdv. destruct Hdv as [_ Hb].
    eexists. split; [exact Hb|].
    rewrite lookup_app_l by (rewrite length_map; by apply lookup_lt_Some in Hx).
    by rewrite list_lookup_fmap, Hx. }
  pose proof (lookup_lt_Some _ _ _ Hx) as Hj. destruct Hst as (Hlen & _).
  split.
  - intros Hlt.
    unfold PushBack_ref, PushBack, grow_push, this, lift, read_ref. unfold_monads.
    cbn [fst snd]. destruct (Nat.eqb_spec (size_ v) (capacity_ v)); [lia|].
    change (snd (v, m)) with m. change (fst (v, m)) with v.
    rewrite (holds_read b j x m Hh). reflexivity.
  - intros Hn.
    pose proof (fill_ref_loop b j x (Some b) (size_ v) 0 (n - size_ v) m Hh ltac:(intros _; lia)) as E.
    unfold Resize_value_ref, Resize_value, Resize_with, uninitialized_fill_n, this, lift, read_ref in *.
    unfold_monads. cbn [fst snd].
    destruct (Nat.ltb_spec (capacity_ v) n); [lia|].
    destruct (n <? size_ v); [reflexivity|].
    change (snd (v, m)) with m. change (fst (v, m)) with v. rewrite Hd, E. reflexivity.
Qed.
End Aliasing.

(** ** Witnesses: the claims at concrete inputs *)

Lemma At_spec_witness :
  stored sample_vec sample_machine [5%Z; 7%Z] /\
  At 2 (sample_vec, sample_machine) = Exc ArrayOutOfRange (sample_vec, sample_machine) /\
  At 1 (sample_vec, sample_machine) = Ok 7%Z (sample_vec, sample_machine).
Proof.
  assert (Hst : stored sample_vec sample_machine [5%Z; 7%Z])
    by (split; [reflexivity|split; [simpl; lia|split; [simpl; lia|reflexivity]]]).
  destruct (At_spec sample_vec sample_machine [5%Z; 7%Z] 2 Hst) as (_ & Hout & _).
  destruct (At_spec sample_vec sample_machine [5%Z; 7%Z] 1 Hst) as (_ & _ & Hin).
  split; [exact Hst|]. split; [apply Hout; simpl; lia|].
  destruct (Hin ltac:(simpl; lia)) as (x & Hx & HAt). simpl in Hx.
  injection Hx as <-. exact HAt.
Defined.

Lemma PushBack_outside_spec_witness :
  let s' := (mkVec 3 3 (Some 0), mkMachine {[0 := [Live 5%Z; Live 7%Z; Live 9%Z]]} 1) in
  stored sample_vec sample_machine [5%Z; 7%Z] /\
  PushBack_ref (counting_ops 100) (RVal 9%Z) (sample_vec, sample_machine) = Ok tt s' /\
  size_ (fst s') = 3 /\ stored (fst s') (snd s') [5%Z; 7%Z; 9%Z] /\
  contents (mkVec 2 2 (Some 1)) (mkMachine {[1 := [Live 5%Z; Live 7%Z]]} 3) = Some [5%Z; 7%Z].
Proof.
  assert (Hm : forall k x y x', move_ctor (counting_ops 100) k x = Some (y, x') -> y = x)
    by (intros k x y x' H; simpl in H; congruence).
  assert (Hc : forall k x y, copy_ctor (counting_ops 100) k x = Some y -> y = x)
    by (intros k x y H; simpl in H; destruct (k =? 100); congruence).
  assert (Hst : stored sample_vec sample_machine [5%Z; 7%Z])
    by (split; [reflexivity|split; [simpl; lia|split; [simpl; lia|reflexivity]]]).
  assert (Hrun : PushBack_ref (counting_ops 100) (RVal 9%Z) (sample_vec, sample_machine) =
                 Ok tt (mkVec 3 3 (Some 0), mkMachine {[0 := [Live 5%Z; Live 7%Z; Live 9%Z]]} 1))
    by (vm_compute; reflexivity).
  destruct (proj1 (PushBack_outside_spec (counting_ops 100) Hm Hc) _ _ _ _ _ Hst (or_introl Hrun))
    as (Hsz & Hst' & _).
  assert (Hall : run_all (map (fun x => PushBack_ref (counting_ops 100) (RVal x)) [5%Z; 7%Z])
                   (empty_vec, machine0) =
                 Ok tt (mkVec 2 2 (Some 1), mkMachine {[1 := [Live 5%Z; Live 7%Z]]} 3))
    by (vm_compute; reflexivity).
  destruct (proj2 (PushBack_outside_spec (counting_ops 100) Hm Hc) _ _ Hall) as (_ & Hcont & _).
  split; [exact Hst|]. split; [exact Hrun|]. split; [exact Hsz|]. split; [exact Hst'|].
  exact Hcont.
Defined.

Lemma Resize_outside_spec_witness :
  let s' := (mkVec 4 4 (Some 1), mkMachine {[1 := [Live 5%Z; Live 7%Z; Live 9%Z; Live 9%Z]]} 4) in
  stored sample_vec sample_machine [5%Z; 7%Z] /\
  Resize_value_ref (counting_ops 100) 4 (RVal 9%Z) (sample_vec, sample_machine) = Ok tt s' /\
  size_ (fst s') = 4 /\ stored (fst s') (snd s') [5%Z; 7%Z; 9%Z; 9%Z].
Proof.
  assert (Hm : forall k x y x', move_ctor (counting_ops 100) k x = Some (y, x') -> y = x)
    by (intros k x y x' H; simpl in H; congruence).
  assert (Hc : forall k x y, copy_ctor (counting_ops 100) k x = Some y -> y = x)
    by (intros k x y H; simpl in H; destruct (k =? 100); congruence).
  assert (Hst : stored sample_vec sample_machine [5%Z; 7%Z])
    by (split; [reflexivity|split; [simpl; lia|split; [simpl; lia|reflexivity]]]).
  assert (Hrun : Resize_value_ref (counting_ops 100) 4 (RVal 9%Z) (sample_vec, sample_machine) =
                 Ok tt (mkVec 4 4 (Some 1),
                        mkMachine {[1 := [Live 5%Z; Live 7%Z; Live 9%Z; Live 9%Z]]} 4))
    by (vm_compute; reflexivity).
  destruct (proj2 (Resize_outside_spec (counting_ops 100) Hm Hc _ _ _ 4 Hst) 9%Z _ Hrun)
    as (Hsz & Hst' & _).
  split; [exact Hst|]. split; [exact Hrun|]. split; [exact Hsz|]. exact Hst'.
Defined.

Lemma rep_ok_preserved_witness :
  rep_ok sample_vec = true /\
  rep_kept (Resize (counting_ops 100) 5 (sample_vec, sample_machine)) /\
  rep_kept (PushBack (counting_ops 100) 9%Z (sample_vec, sample_machine)).
Proof.
  assert (Hv : rep_ok sample_vec = true) by reflexivity.
  destruct (proj1 (rep_ok_preserved (counting_ops 100)) sample_vec sample_machine Hv)
    as (HR & _ & _ & _ & _ & HP & _).
  split; [exact Hv|]. split; [apply HR|apply HP].
Defined.

Lemma move_spec_witness :
  objs sample_world !! 1 = Some (mkVec 2 2 (Some 1)) /\
  move_construct 2 1 sample_world =
    WOk tt (mkWorld (<[1 := empty_vec]> (<[2 := mkVec 2 2 (Some 1)]> (objs sample_world)))
                    (mach sample_world)) /\
  move_assign 0 1 sample_world =
    WOk tt (mkWorld (<[1 := empty_vec]> (<[0 := mkVec 2 2 (Some 1)]> (objs sample_world)))
                    (mkMachine (release (Some 0) (heap (mach sample_world))) 0)).
Proof.
  assert (Hb : objs sample_world !! 1 = Some (mkVec 2 2 (Some 1))) by reflexivity.
  assert (Ha : objs sample_world !! 2 = None) by reflexivity.
  assert (Ha0 : objs sample_world !! 0 = Some (mkVec 1 2 (Some 0))) by reflexivity.
  assert (Hd : stored (mkVec 1 2 (Some 0)) (mach sample_world) [4%Z])
    by (split; [reflexivity|split; [simpl; lia|split; [simpl; lia|reflexivity]]]).
  destruct (move_spec sample_world 2 1 _ Hb) as (Hmc & _ & _).
  destruct (move_spec sample_world 0 1 _ Hb) as (_ & Hma & _).
  split; [exact Hb|]. split; [exact (Hmc Ha)|].
  refine (proj1 (Hma _ _ ltac:(lia) Ha0 Hd _)).
  intros bd Hbd. simpl in Hbd. injection Hbd as <-. simpl. congruence.
Defined.

Lemma copy_assign_spec_witness :
  objs sample_world !! 0 = Some (mkVec 1 2 (Some 0)) /\
  objs sample_world !! 1 = Some (mkVec 2 2 (Some 1)) /\
  copy_assign (counting_ops 100) 0 0 sample_world = WOk tt sample_world /\
  copy_assign (counting_ops 100) 0 1 sample_world <> WUB.
Proof.
  assert (Hc : forall k x y, copy_ctor (counting_ops 100) k x = Some y -> y = x)
    by (intros k x y H; simpl in H; destruct (k =? 100); congruence).
  assert (Ha : objs sample_world !! 0 = Some (mkVec 1 2 (Some 0))) by reflexivity.
  assert (Hb : objs sample_world !! 1 = Some (mkVec 2 2 (Some 1))) by reflexivity.
  assert (Hd : stored (mkVec 1 2 (Some 0)) (mach sample_world) [4%Z])
    by (split; [reflexivity|split; [simpl; lia|split; [simpl; lia|reflexivity]]]).
  assert (Hs : stored (mkVec 2 2 (Some 1)) (mach sample_world) [5%Z; 7%Z])
    by (split; [reflexivity|split; [simpl; lia|split; [simpl; lia|reflexivity]]]).
  destruct (copy_assign_spec (counting_ops 100) Hc sample_world 0 1) as (Hself & Hmain).
  split; [exact Ha|]. split; [exact Hb|]. split; [exact Hself|].
  assert (Hdisj : forall bd, data_ (mkVec 1 2 (Some 0)) = Some bd ->
                            data_ (mkVec 2 2 (Some 1)) <> Some bd)
    by (intros bd Hbd; simpl in Hbd; injection Hbd as <-; simpl; congruence).
  pose proof (Hmain _ _ _ _ ltac:(lia) Ha Hb Hd Hs Hdisj) as H.
  intros E. rewrite E in H. exact H.
Defined.

Lemma compare_spec_witness :
  stored sample_vec sample_machine [5%Z; 7%Z] /\
  op_eq (counting_ops 100) sample_vec sample_vec sample_machine = MOk true sample_machine /\
  op_lt (counting_ops 100) sample_vec sample_vec sample_machine = MOk false sample_machine.
Proof.
  assert (Hst : stored sample_vec sample_machine [5%Z; 7%Z])
    by (split; [reflexivity|split; [simpl; lia|split; [simpl; lia|reflexivity]]]).
  destruct (proj1 (compare_spec (counting_ops 100)) _ _ _ _ _ Hst Hst) as (Heq & Hlt & _).
  split; [exact Hst|]. split; [exact Heq|exact Hlt].
Defined.

Lemma ShrinkToFit_spec_witness :
  let s' := (mkVec 2 2 (Some 1), mkMachine {[1 := [Live 5%Z; Live 7%Z]]} 2) in
  stored sample_vec sample_machine [5%Z; 7%Z] /\
  ShrinkToFit (counting_ops 100) (sample_vec, sample_machine) = Ok tt s' /\
  capacity_ (fst s') = 2 /\ contents (fst s') (snd s') = Some [5%Z; 7%Z].
Proof.
  assert (Hm : forall k x y x', move_ctor (counting_ops 100) k x = Some (y, x') -> y = x)
    by (intros k x y x' H; simpl in H; congruence).
  assert (Hst : stored sample_vec sample_machine [5%Z; 7%Z])
    by (split; [reflexivity|split; [simpl; lia|split; [simpl; lia|reflexivity]]]).
  assert (Hrun : ShrinkToFit (counting_ops 100) (sample_vec, sample_machine) =
                 Ok tt (mkVec 2 2 (Some 1), mkMachine {[1 := [Live 5%Z; Live 7%Z]]} 2))
    by (vm_compute; reflexivity).
  destruct (ShrinkToFit_spec (counting_ops 100) Hm _ _ _ _ Hst Hrun)
    as (_ & Hcap & Hcont & _).
  split; [exact Hst|]. split; [exact Hrun|]. split; [exact Hcap|exact Hcont].
Defined.

Lemma capacity_exact_witness :
  let s' := (mkVec 2 10 (Some 1),
             mkMachine {[1 := [Live 5%Z; Live 7%Z] ++ replicate 8 Raw]} 2) in
  Reserve (counting_ops 100) 10 (sample_vec, sample_machine) = Ok tt s' /\
  capacity_ (fst s') = 10 /\
  Reserve (counting_ops 100) 2 (sample_vec, sample_machine) = Ok tt (sample_vec, sample_machine).
Proof.
  assert (Hrun : Reserve (counting_ops 100) 10 (sample_vec, sample_machine) =
                 Ok tt (mkVec 2 10 (Some 1),
                        mkMachine {[1 := [Live 5%Z; Live 7%Z] ++ replicate 8 Raw]} 2))
    by (vm_compute; reflexivity).
  destruct (capacity_exact (counting_ops 100) sample_vec sample_machine 10) as (HR & _).
  destruct (capacity_exact (counting_ops 100) sample_vec sample_machine 2) as (_ & _ & _ & Hle).
  split; [exact Hrun|]. split; [exact (HR ltac:(simpl; lia) _ Hrun)|].
  apply Hle. simpl. lia.
Defined.


(** ** Witnesses: the further properties at concrete inputs *)

Lemma sample_stored : stored sample_vec sample_machine [5%Z; 7%Z].
Proof. split; [reflexivity|split; [simpl; lia|split; [simpl; lia|reflexivity]]]. Qed.


Lemma counting_copy_faithful n : forall k x y, copy_ctor (counting_ops n) k x = Some y -> y = x.
Proof. intros k x y H. simpl in H. destruct (k =? n); congruence. Qed.

Lemma growth_exception_no_leak_witness :
  let v := mkVec 2 2 (Some 0) in
  let m := mkMachine {[0 := [Live 5%Z; Live 7%Z]]} 0 in
  let s' := (mkVec 2 2 (Some 0), mkMachine {[0 := [Live 0%Z; Live 0%Z]]} 3) in
  PushBack (counting_ops 2) 9%Z (v, m) = Exc ElementFailure s' /\
  fst s' = v /\ dom (heap (snd s')) = dom (heap m).
Proof.
  intros v m s'.
  assert (H : PushBack (counting_ops 2) 9%Z (v, m) = Exc ElementFailure s') by (vm_compute; reflexivity).
  split; [exact H|].
  exact (proj1 (proj2 (proj2 (proj2 (growth_exception_no_leak (counting_ops 2) v m ElementFailure s'))))
           9%Z (or_introl H)).
Defined.

Lemma in_place_strong_guarantee_witness :
  let s' := (sample_vec, mkMachine {[0 := [Live 5%Z; Live 7%Z; Raw]]} 1) in
  PushBack (counting_ops 0) 9%Z (sample_vec, sample_machine) = Exc ElementFailure s' /\
  fst s' = sample_vec /\ heap (snd s') = heap sample_machine.
Proof.
  intros s'.
  assert (H : PushBack (counting_ops 0) 9%Z (sample_vec, sample_machine) = Exc ElementFailure s')
    by (vm_compute; reflexivity).
  destruct (in_place_strong_guarantee (counting_ops 0) sample_vec sample_machine _ sample_stored)
    as (HP & _ & _).
  destruct (HP ltac:(simpl; lia) 9%Z _ _ (or_introl H)) as (_ & H1 & H2).
  split; [exact H|]. split; [exact H1|exact H2].
Defined.

Lemma range_ctor_spec_witness :
  let m' := mkMachine (<[1 := [Live 5%Z; Live 7%Z]]> (heap sample_machine)) 2 in
  new_from_range (counting_ops 100) (begin_ sample_vec) (end_ sample_vec) sample_machine =
    MOk (mkVec 2 2 (Some 1)) m' /\
  stored (mkVec 2 2 (Some 1)) m' [5%Z; 7%Z] /\ stored sample_vec m' [5%Z; 7%Z].
Proof.
  intros m'.
  assert (H : new_from_range (counting_ops 100) (begin_ sample_vec) (end_ sample_vec) sample_machine =
                MOk (mkVec 2 2 (Some 1)) m') by (vm_compute; reflexivity).
  pose proof (range_ctor_spec (counting_ops 100) (counting_copy_faithful 100) _ _ _ sample_stored) as G.
  rewrite H in G. destruct G as (_ & _ & Hw & Hv & _).
  split; [exact H|]. split; [exact Hw|exact Hv].
Defined.

Lemma Clear_spec_witness :
  Clear (sample_vec, sample_machine) =
    Ok tt (mkVec 0 3 (Some 0), mkMachine (<[0 := replicate 3 Raw]> (heap sample_machine)) 0) /\
  stored (mkVec 0 3 (Some 0)) (mkMachine (<[0 := replicate 3 Raw]> (heap sample_machine)) 0) [].
Proof.
  destruct (Clear_spec sample_vec sample_machine _ sample_stored) as [H1 H2].
  split; [exact H1|exact H2].
Defined.

Lemma PopBack_spec_witness :
  PopBack (sample_vec, sample_machine) =
    Ok tt (mkVec 1 3 (Some 0), mkMachine (<[0 := [Live 5%Z; Raw; Raw]]> (heap sample_machine)) 0) /\
  stored (mkVec 1 3 (Some 0)) (mkMachine (<[0 := [Live 5%Z; Raw; Raw]]> (heap sample_machine)) 0) [5%Z].
Proof.
  destruct (PopBack_spec sample_vec sample_machine _ sample_stored) as [_ H].
  destruct (H [5%Z] 7%Z eq_refl) as [H1 H2].
  split; [exact H1|exact H2].
Defined.

Lemma Resize_shrink_no_throw_witness :
  let s' := (mkVec 1 3 (Some 0), mkMachine (<[0 := [Live 5%Z; Raw; Raw]]> (heap sample_machine)) 0) in
  Resize (counting_ops 0) 1 (sample_vec, sample_machine) = Ok tt s' /\
  Resize_value (counting_ops 0) 1 9%Z (sample_vec, sample_machine) = Ok tt s'.
Proof.
  destruct (Resize_shrink_no_throw (counting_ops 0) sample_vec sample_machine _ 1 sample_stored
              ltac:(simpl; lia)) as [H1 H2].
  split; [exact H1|exact (H2 9%Z)].
Defined.

Lemma Swap_spec_witness :
  Swap 0 1 sample_world =
    WOk tt (mkWorld (<[1 := mkVec 1 2 (Some 0)]> (<[0 := mkVec 2 2 (Some 1)]> (objs sample_world)))
                    (mach sample_world)) /\
  (Swap 0 1 ≫= fun _ => Swap 0 1) sample_world = WOk tt sample_world.
Proof. exact (Swap_spec sample_world 0 1 _ _ eq_refl eq_refl). Defined.

Lemma index_op_spec_witness :
  index_op 1 (sample_vec, sample_machine) = Ok 7%Z (sample_vec, sample_machine) /\
  index_op 2 (sample_vec, sample_machine) = UB.
Proof.
  destruct (index_op_spec sample_vec sample_machine _ sample_stored) as [H1 H2].
  split; [exact (H1 1 7%Z eq_refl)|exact (H2 2 ltac:(simpl; lia))].
Defined.

Lemma Front_Back_spec_witness :
  Front (sample_vec, sample_machine) = Ok 5%Z (sample_vec, sample_machine) /\
  Back (sample_vec, sample_machine) = Ok 7%Z (sample_vec, sample_machine) /\
  Front (T:=Z) (empty_vec, machine0) = UB /\ Back (T:=Z) (empty_vec, machine0) = UB.
Proof.
  destruct (Front_Back_spec sample_vec sample_machine _ sample_stored) as (HF & HB & _).
  assert (He : stored (T:=Z) empty_vec machine0 [])
    by (split; [reflexivity|split; [simpl; lia|reflexivity]]).
  destruct (Front_Back_spec empty_vec machine0 [] He) as (_ & _ & HE).
  split; [exact (HF 5%Z [7%Z] eq_refl)|]. split; [exact (HB [5%Z] 7%Z eq_refl)|].
  exact (HE eq_refl).
Defined.

Lemma clear_shrink_releases_witness :
  (Clear ;; ShrinkToFit (counting_ops 100)) (sample_vec, sample_machine) =
    Ok tt (mkVec 0 0 None, mkMachine (release (Some 0) (heap sample_machine)) 0).
Proof. exact (clear_shrink_releases (counting_ops 100) sample_vec sample_machine _ sample_stored). Defined.

Lemma destructor_releases_witness :
  destruct_vec (sample_vec, sample_machine) =
    Ok tt (mkVec 0 3 (Some 0), mkMachine (release (Some 0) (heap sample_machine)) 0).
Proof. exact (destructor_releases sample_vec sample_machine _ sample_stored). Defined.

Lemma moved_from_destroy_witness :
  exists w1 w2, move_construct 2 1 sample_world = WOk tt w1 /\
    run_method 1 destruct_vec w1 = WOk tt w2 /\
    mach w2 = mach sample_world /\ objs w2 !! 2 = Some (mkVec 2 2 (Some 1)).
Proof.
  destruct (moved_from_destroy sample_world 2 1 _ eq_refl eq_refl) as (w1 & w2 & H1 & H2 & H3 & H4 & _).
  exists w1, w2. split; [exact H1|]. split; [exact H2|]. split; [exact H3|exact H4].
Defined.



Lemma copy_compares_equal_witness :
  let m' := mkMachine (<[1 := [Live 5%Z; Live 7%Z; Raw]]> (heap sample_machine)) 2 in
  copy_construct (counting_ops 100) sample_vec sample_machine = MOk (mkVec 2 3 (Some 1)) m' /\
  op_eq (counting_ops 100) (mkVec 2 3 (Some 1)) sample_vec m' = MOk true m'.
Proof.
  intros m'.
  assert (H : copy_construct (counting_ops 100) sample_vec sample_machine = MOk (mkVec 2 3 (Some 1)) m')
    by (vm_compute; reflexivity).
  destruct (copy_compares_equal (counting_ops 100) (counting_copy_faithful 100) Z.eqb_refl
              _ _ _ _ _ sample_stored H) as (Heq & _).
  split; [exact H|exact Heq].
Defined.

Lemma element_argument_in_place_witness :
  PushBack_ref (counting_ops 100) (RSlot 0 1) (sample_vec, sample_machine) =
    PushBack (counting_ops 100) 7%Z (sample_vec, sample_machine) /\
  Resize_value_ref (counting_ops 100) 3 (RSlot 0 0) (sample_vec, sample_machine) =
    Resize_value (counting_ops 100) 3 5%Z (sample_vec, sample_machine).
Proof.
  split.
  - exact (proj1 (element_argument_in_place (counting_ops 100) sample_vec sample_machine _ 0 1 7%Z 3
                    sample_stored eq_refl eq_refl) ltac:(simpl; lia)).
  - exact (proj2 (element_argument_in_place (counting_ops 100) sample_vec sample_machine _ 0 0 5%Z 3
                    sample_stored eq_refl eq_refl) ltac:(simpl; lia)).
Defined.
